(** * Gaana-API: stream path decryption and HLS manifest resolution

    A shallow embedding of [src/utils/crypto.ts] and the properties of
    its URL resolution, playlist scan, path decryptor and orchestrator.

    Conventions of the embedding:
    - a JavaScript string is the list of its UTF-16 code units ([N]);
      [js "..."] turns an ASCII literal into such a list;
    - a JavaScript number is an IEEE-754 binary64 value ([spec_float]
      with precision 53 and maximal exponent 1024);
    - indices are [Z], with [-1] for "not found" as in the source;
    - the network, the console and exceptions are explicit: a [World]
      answers requests, and every effectful function runs in the monad
      [M], which threads a trace of events and may throw. *)

From Stdlib Require Import String Ascii.
From Stdlib Require Import List NArith ZArith Bool Lia.
From Stdlib Require Import SpecFloat.
Import ListNotations.

Local Open Scope Z_scope.

(** ** JavaScript strings *)

Definition jsstring := list N.

Definition js (s : string) : jsstring :=
  map N_of_ascii (list_ascii_of_string s).

Arguments js s%_string.

Definition jslength (s : jsstring) : Z := Z.of_nat (length s).

(** [s.startsWith(pat)] *)
Fixpoint startsWith (s pat : jsstring) {struct pat} : bool :=
  match pat, s with
  | [], _ => true
  | p :: pat', c :: s' => (c =? p)%N && startsWith s' pat'
  | _ :: _, [] => false
  end.

(** Scan for [pat] in [s], where [s] is the suffix that starts at index [i]. *)
Fixpoint indexOf_from (s pat : jsstring) (i : Z) : Z :=
  if startsWith s pat then i
  else match s with
       | [] => -1
       | _ :: s' => indexOf_from s' pat (i + 1)
       end.

Definition clampIndex (s : jsstring) (i : Z) : nat :=
  Z.to_nat (Z.min (Z.max i 0) (jslength s)).

(** [s.indexOf(pat, from)] *)
Definition indexOf (s pat : jsstring) (from : Z) : Z :=
  let k := clampIndex s from in
  indexOf_from (skipn k s) pat (Z.of_nat k).

(** [s.endsWith(suffix)] *)
Definition endsWith (s suffix : jsstring) : bool :=
  startsWith (rev s) (rev suffix).

(** [a === b] on strings *)
Fixpoint strEq (a b : jsstring) : bool :=
  match a, b with
  | [], [] => true
  | x :: a', y :: b' => (x =? y)%N && strEq a' b'
  | _, _ => false
  end.

(** [s.includes(pat)] *)
Definition includes (s pat : jsstring) : bool :=
  negb (indexOf s pat 0 =? -1).

Fixpoint lastIndexOf_from (s pat : jsstring) (i acc : Z) : Z :=
  let acc' := if startsWith s pat then i else acc in
  match s with
  | [] => acc'
  | _ :: s' => lastIndexOf_from s' pat (i + 1) acc'
  end.

(** [s.lastIndexOf(pat)] *)
Definition lastIndexOf (s pat : jsstring) : Z :=
  lastIndexOf_from s pat 0 (-1).

(** [s.substring(a, b)]: both indices are clamped to [0, length] and
    swapped when [a > b]. *)
Definition substring (s : jsstring) (a b : Z) : jsstring :=
  let a' := clampIndex s a in
  let b' := clampIndex s b in
  firstn (Nat.max a' b' - Nat.min a' b') (skipn (Nat.min a' b') s).

(** [s.substring(a)] *)
Definition substringFrom (s : jsstring) (a : Z) : jsstring :=
  substring s a (jslength s).

(** [s.split(sep)] for a separator of one code unit; the result always
    has at least one piece. *)
Fixpoint split (sep : N) (s : jsstring) : list jsstring :=
  match s with
  | [] => [[]]
  | c :: s' =>
      if (c =? sep)%N then [] :: split sep s'
      else match split sep s' with
           | [] => [[c]]
           | p :: ps => (c :: p) :: ps
           end
  end.

(** ECMAScript WhiteSpace and LineTerminator code units. *)
Definition isWhiteSpace (c : N) : bool :=
  ((9 <=? c) && (c <=? 13) || (c =? 32) || (c =? 160) || (c =? 0x1680)
   || (0x2000 <=? c) && (c <=? 0x200A)
   || (c =? 0x2028) || (c =? 0x2029) || (c =? 0x202F) || (c =? 0x205F)
   || (c =? 0x3000) || (c =? 0xFEFF))%N.

Fixpoint trimStart (s : jsstring) : jsstring :=
  match s with
  | [] => []
  | c :: s' => if isWhiteSpace c then trimStart s' else s
  end.

Definition trimEnd (s : jsstring) : jsstring := rev (trimStart (rev s)).

(** [s.trim()] *)
Definition trim (s : jsstring) : jsstring := trimEnd (trimStart s).

(** Code units of the characters the source tests for. *)
Definition ch_slash : N := 47.
Definition ch_question : N := 63.
Definition ch_hash : N := 35.
Definition ch_comma : N := 44.
Definition ch_newline : N := 10.
Definition ch_quote : N := 34.
Definition ch_dot : N := 46.
Definition ch_colon : N := 58.

(** ** URL helpers *)

Definition HLS_BASE_URL : jsstring :=
  js "https://vodhlsgaana-ebw.akamaized.net/".

(** Lines 42-46. *)
Definition getBaseUrl (url : jsstring) : jsstring :=
  let urlWithoutQuery := nth 0 (split ch_question url) [] in
  let lastSlash := lastIndexOf urlWithoutQuery [ch_slash] in
  if negb (lastSlash =? -1) then substring urlWithoutQuery 0 (lastSlash + 1)
  else urlWithoutQuery.

(** Lines 51-61. *)
Definition resolveUrl (baseUrl path : jsstring) : jsstring :=
  if startsWith path (js "http://") || startsWith path (js "https://") then path
  else
    let fallback := baseUrl ++ path in
    if startsWith path [ch_slash] then
      let schemeEnd := indexOf baseUrl (js "://") 0 in
      if negb (schemeEnd =? -1) then
        let pathStart := indexOf baseUrl [ch_slash] (schemeEnd + 3) in
        if negb (pathStart =? -1) then substring baseUrl 0 pathStart ++ path
        else fallback
      else fallback
    else fallback.

(** ** JavaScript numbers (IEEE-754 binary64) *)

Definition number := spec_float.
Definition prec : Z := 53.
Definition emax : Z := 1024.

(** The double of a non-negative integer below [2^53], with the sign
    [s]: the mantissa is shifted up to [prec] bits, as [binary_round]
    does. *)
Definition int_to_number (s : bool) (k : Z) : number :=
  match k with
  | Zpos p =>
      let '(m, e) := shl_align p 0 (Zpos (digits2_pos p) - prec) in
      S754_finite s m e
  | _ => S754_zero s
  end.

Definition num (z : Z) : number := int_to_number (z <? 0) (Z.abs z).

(** [x * y] and [x + y] *)
Definition num_mul (x y : number) : number := SFmul prec emax x y.
Definition num_add (x y : number) : number := SFadd prec emax x y.

(** ToBoolean on a number: [0], [-0] and [NaN] are falsy. *)
Definition num_truthy (x : number) : bool :=
  match x with
  | S754_zero _ | S754_nan => false
  | _ => true
  end.

(** [x || y] on numbers *)
Definition num_or (x y : number) : number := if num_truthy x then x else y.

(** [Math.round(x)]: the integer closest to [x], ties towards +Infinity;
    [-0] for [-0.5 <= x < 0].  A finite [x] is [(-1)^s * m * 2^e]. *)
Definition Math_round (x : number) : number :=
  match x with
  | S754_finite s m e =>
      if 0 <=? e then x
      else
        let d := 2 ^ (- e) in
        let h := d / 2 in
        int_to_number s (if s then (Zpos m + h - 1) / d else (Zpos m + h) / d)
  | _ => x
  end.

(** [Number.isInteger(x)] *)
Definition isInteger (x : number) : bool :=
  match x with
  | S754_zero _ => true
  | S754_finite _ m e => (0 <=? e) || (Zpos m mod 2 ^ (- e) =? 0)
  | _ => false
  end.

Definition isInfinite (x : number) : bool :=
  match x with
  | S754_infinity _ => true
  | _ => false
  end.

Definition isNegative (x : number) : bool :=
  match x with
  | S754_finite s _ _ | S754_infinity s | S754_zero s => s
  | S754_nan => false
  end.

Definition isDigit (c : N) : bool := ((48 <=? c) && (c <=? 57))%N.

(** The longest run of decimal digits at the head of [s], and the rest. *)
Fixpoint takeDigits (s : jsstring) : list N * jsstring :=
  match s with
  | c :: s' =>
      if isDigit c then let '(ds, r) := takeDigits s' in (c :: ds, r)
      else ([], s)
  | [] => ([], [])
  end.

Definition digitsValue (ds : list N) : Z :=
  fold_left (fun acc c => 10 * acc + Z.of_N (c - 48)) ds 0.

(** The double nearest to [(-1)^s * m * 10^e] (ties to even). *)
Definition decimal_to_number (s : bool) (m e : Z) : number :=
  match m with
  | Zpos p =>
      if 0 <=? e then binary_round prec emax s (Z.to_pos (m * 10 ^ e)) 0
      else
        let '(q, e', l) := SFdiv_core_binary prec emax m 0 (10 ^ (- e)) 0 in
        binary_round_aux prec emax s q e' l
  | _ => S754_zero s
  end.

Definition takeSign (s : jsstring) : bool * jsstring :=
  match s with
  | c :: s' => if (c =? 45)%N then (true, s')
               else if (c =? 43)%N then (false, s') else (false, s)
  | [] => (false, [])
  end.

(** The exponent part [e[+-]digits] at the head of [s], when there is one. *)
Definition takeExponent (s : jsstring) : Z :=
  match s with
  | c :: s' =>
      if (c =? 101)%N || (c =? 69)%N then
        let '(neg, r) := takeSign s' in
        match fst (takeDigits r) with
        | [] => 0
        | ds => if neg then - digitsValue ds else digitsValue ds
        end
      else 0
  | [] => 0
  end.

(** [parseFloat(s)]: leading white space is skipped, then the longest
    prefix that is a StrDecimalLiteral is converted; [NaN] when there
    is none. *)
Definition parseFloat (s : jsstring) : number :=
  let '(neg, r) := takeSign (trimStart s) in
  if startsWith r (js "Infinity") then S754_infinity neg
  else
    let '(ip, r1) := takeDigits r in
    let '(fp, r2) :=
      match r1 with
      | c :: r1' => if (c =? ch_dot)%N then takeDigits r1' else ([], r1)
      | [] => ([], r1)
      end in
    match ip ++ fp with
    | [] => S754_nan
    | ds => decimal_to_number neg (digitsValue ds)
              (takeExponent r2 - Z.of_nat (length fp))
    end.

(** ** The regular expressions of the source *)

(** [re.test(s)] for a pattern without anchors at its head: the pattern
    is tried at every position of [s], the end included. *)
Fixpoint regexTest (here : jsstring -> bool) (s : jsstring) : bool :=
  here s || match s with
            | [] => false
            | _ :: s' => regexTest here s'
            end.

(** [s.match(re)]: the leftmost match. *)
Fixpoint regexMatch {A} (here : jsstring -> option A) (s : jsstring) : option A :=
  match here s with
  | Some x => Some x
  | None => match s with
            | [] => None
            | _ :: s' => regexMatch here s'
            end
  end.

(** Canonicalisation under the [i] flag (without [u]): only ASCII
    letters fold onto ASCII letters. *)
Definition foldCase (c : N) : N :=
  if ((97 <=? c) && (c <=? 122))%N then (c - 32)%N else c.

Fixpoint startsWithCI (s pat : jsstring) {struct pat} : bool :=
  match pat, s with
  | [], _ => true
  | p :: pat', c :: s' => (foldCase c =? foldCase p)%N && startsWithCI s' pat'
  | _ :: _, [] => false
  end.

(** [(\?|$)] *)
Definition queryOrEnd (s : jsstring) : bool :=
  match s with
  | [] => true
  | c :: _ => (c =? ch_question)%N
  end.

Definition segmentExtensions : list jsstring :=
  [js "ts"; js "m4s"; js "mp4"; js "m4a"; js "aac"].

(** [/\.(ts|m4s|mp4|m4a|aac)(\?|$)/i] at the head of [s]. *)
Definition segmentPatternHere (s : jsstring) : bool :=
  match s with
  | c :: r =>
      (c =? ch_dot)%N &&
      existsb (fun ext => startsWithCI r ext && queryOrEnd (skipn (length ext) r))
              segmentExtensions
  | [] => false
  end.

Definition isSegmentName (line : jsstring) : bool :=
  regexTest segmentPatternHere line.

(** [/\.m3u8(\?|$)/] at the head of [s]. *)
Definition m3u8PatternHere (s : jsstring) : bool :=
  startsWith s (js ".m3u8") && queryOrEnd (skipn 5 s).

Definition isPlaylistName (line : jsstring) : bool :=
  regexTest m3u8PatternHere line.

Fixpoint takeUntil (q : N) (s : jsstring) : jsstring * jsstring :=
  match s with
  | c :: s' =>
      if (c =? q)%N then ([], s)
      else let '(t, r) := takeUntil q s' in (c :: t, r)
  | [] => ([], [])
  end.

(** The pattern of line 89 at the head of [s]: the text URI=, a double
    quote, one or more code units other than a double quote (the
    captured group, returned here), and a closing double quote. *)
Definition uriPatternHere (s : jsstring) : option jsstring :=
  if startsWith s (js "URI=" ++ [ch_quote]) then
    match takeUntil ch_quote (skipn 5 s) with
    | (c :: t, _ :: _) => Some (c :: t)
    | _ => None
    end
  else None.

(** ** The media playlist scan *)

Record SegmentInfo := { url : jsstring; durationMs : number }.

Record HlsManifest := {
  initSegmentUrl : option jsstring;
  segments : list SegmentInfo;
  totalDurationMs : number
}.

Definition DEFAULT_DURATION : number := num 6000.

(** A duration that the scan may attach to a segment: neither [NaN]
    nor zero, and an integer unless it is infinite. *)
Definition wholeDuration (x : number) : Prop :=
  num_truthy x = true /\ (isInteger x = true \/ isInfinite x = true).

(** The variables of the loop of [parseStreamPlaylist]. *)
Record ScanState := {
  st_init : option jsstring;
  st_segments : list SegmentInfo;
  st_duration : number
}.

(** Line 97: the text between the directive name and the first comma. *)
Definition durationStr (line : jsstring) : jsstring :=
  nth 0 (split ch_comma (substringFrom line 8)) [].

(** Line 98. *)
Definition extinfDuration (line : jsstring) : number :=
  num_or (Math_round (num_mul (parseFloat (durationStr line)) (num 1000)))
         DEFAULT_DURATION.

(** One iteration of the loop, lines 84-112. *)
Definition scanLine (baseUrl : jsstring) (st : ScanState) (line : jsstring) : ScanState :=
  match line with
  | [] => st
  | _ :: _ =>
      let init1 :=
        if startsWith line (js "#EXT-X-MAP:") then
          match regexMatch uriPatternHere line with
          | Some u => Some (resolveUrl baseUrl u)
          | None => st_init st
          end
        else st_init st in
      let dur1 :=
        if startsWith line (js "#EXTINF:") then extinfDuration line
        else st_duration st in
      if negb (startsWith line [ch_hash]) && isSegmentName line then
        {| st_init := init1;
           st_segments := st_segments st ++
             [{| url := resolveUrl baseUrl line; durationMs := dur1 |}];
           st_duration := DEFAULT_DURATION |}
      else
        {| st_init := init1; st_segments := st_segments st; st_duration := dur1 |}
  end.

(** The lines that the loop appends as segments: not empty (line 85),
    not a comment (line 102) and with a media file name (line 103). *)
Definition isSegmentLine (line : jsstring) : bool :=
  match line with
  | [] => false
  | _ :: _ => negb (startsWith line [ch_hash]) && isSegmentName line
  end.

Definition scanLines (baseUrl : jsstring) (st : ScanState) (lines : list jsstring) : ScanState :=
  fold_left (scanLine baseUrl) lines st.

Definition initialScan : ScanState :=
  {| st_init := None; st_segments := []; st_duration := DEFAULT_DURATION |}.

(** A line that the loop neither appends nor reads a duration from. *)
Definition otherLine (line : jsstring) : Prop :=
  isSegmentLine line = false /\ startsWith line (js "#EXTINF:") = false.

(** A duration is the default or was read from a duration directive
    among [lines]. *)
Definition fromDirective (lines : list jsstring) (x : number) : Prop :=
  x = DEFAULT_DURATION
  \/ exists line, In line lines /\ startsWith line (js "#EXTINF:") = true
                  /\ x = extinfDuration line.

(** The invariant of the loop on durations. *)
Definition wholeState (lines : list jsstring) (st : ScanState) : Prop :=
  (wholeDuration (st_duration st) /\ fromDirective lines (st_duration st))
  /\ Forall (fun s => wholeDuration (durationMs s)
                      /\ fromDirective lines (durationMs s))
            (st_segments st).

(** The lines that the loop reads something from: the segment lines
    and the lines of the two directives it knows. *)
Definition relevantLine (line : jsstring) : bool :=
  isSegmentLine line || startsWith line (js "#EXT-X-MAP:")
  || startsWith line (js "#EXTINF:").

(** Lines 78-116. *)
Definition parseStreamPlaylist (playlistUrl : jsstring) (lines : list jsstring) : HlsManifest :=
  let baseUrl := getBaseUrl playlistUrl in
  let st := scanLines baseUrl initialScan lines in
  {| initSegmentUrl := st_init st;
     segments := st_segments st;
     totalDurationMs :=
       fold_left (fun sum s => num_add sum (durationMs s)) (st_segments st) (num 0) |}.

(** ** Buffers: Base64, AES-128-CBC and UTF-8, as Node provides them *)

Definition bytes := list N.

(** The value of a Base64 digit; both the standard and the URL-safe
    alphabet are accepted by [Buffer.from(s, 'base64')]. *)
Definition unbase64 (c : N) : option N :=
  (if (65 <=? c) && (c <=? 90) then Some (c - 65)
   else if (97 <=? c) && (c <=? 122) then Some (c - 71)
   else if (48 <=? c) && (c <=? 57) then Some (c + 4)
   else if (c =? 43) || (c =? 45) then Some 62
   else if (c =? 47) || (c =? 95) then Some 63
   else None)%N.

(** The digits before the first padding character.  Node reads each
    code unit of the string by its low byte, so that a code unit above
    255 counts as the character of its low byte (U+0141 as [A], U+013D
    as the padding character); a byte outside the alphabet is skipped. *)
Fixpoint sextets (s : jsstring) : list N :=
  match s with
  | [] => []
  | c :: s' =>
      let b := (c mod 256)%N in
      if (b =? 61)%N then []
      else match unbase64 b with
           | Some v => v :: sextets s'
           | None => sextets s'
           end
  end.

Fixpoint packSextets (l : list N) : bytes :=
  (match l with
   | a :: b :: c :: d :: r =>
       (a * 4 + b / 16) :: ((b mod 16) * 16 + c / 4) :: ((c mod 4) * 64 + d)
       :: packSextets r
   | [a; b; c] => [a * 4 + b / 16; (b mod 16) * 16 + c / 4]
   | [a; b] => [a * 4 + b / 16]
   | _ => []
   end)%N.

(** [Buffer.from(s, 'base64')] *)
Definition base64_decode (s : jsstring) : bytes := packSextets (sextets s).

Module AES.

(** Multiplication by [x] in GF(2^8) modulo [x^8 + x^4 + x^3 + x + 1]. *)
Definition xtime (b : N) : N :=
  (let d := N.shiftl b 1 mod 256 in
   if 128 <=? b then N.lxor d 27 else d)%N.

Fixpoint gmul_aux (n : nat) (a b : N) : N :=
  match n with
  | O => 0%N
  | S n' => N.lxor (if N.odd b then a else 0%N)
                   (gmul_aux n' (xtime a) (N.div2 b))
  end.

Definition gmul (a b : N) : N := gmul_aux 8 a b.

(** The multiplicative inverse, [x^254]; [0] is mapped to [0]. *)
Definition ginv (x : N) : N := Nat.iter 253 (gmul x) x.

Definition rotl8 (x : N) (n : N) : N :=
  (N.lor (N.shiftl x n) (N.shiftr x (8 - n)) mod 256)%N.

Definition sbox_value (x : N) : N :=
  let s := ginv x in
  N.lxor (N.lxor (N.lxor (N.lxor (N.lxor s (rotl8 s 1)) (rotl8 s 2)) (rotl8 s 3))
                 (rotl8 s 4)) 99%N.

Definition SBOX : list N :=
  Eval vm_compute in map (fun i => sbox_value (N.of_nat i)) (seq 0 256).

Fixpoint position (y : N) (l : list N) (i : N) : N :=
  match l with
  | [] => 0%N
  | x :: l' => if (x =? y)%N then i else position y l' (i + 1)%N
  end.

Definition INV_SBOX : list N :=
  Eval vm_compute in map (fun i => position (N.of_nat i) SBOX 0%N) (seq 0 256).

Definition subByte (x : N) : N := nth (N.to_nat x) SBOX 0%N.
Definition invSubByte (x : N) : N := nth (N.to_nat x) INV_SBOX 0%N.

Definition xorBytes (a b : bytes) : bytes :=
  map (fun p => N.lxor (fst p) (snd p)) (combine a b).

(** [l] cut into pieces of [n] elements; a shorter tail is dropped. *)
Fixpoint chunks_aux (fuel n : nat) (l : bytes) : list bytes :=
  match fuel with
  | O => []
  | S fuel' =>
      if (length l <? n)%nat then []
      else firstn n l :: chunks_aux fuel' n (skipn n l)
  end.

Definition chunks (n : nat) (l : bytes) : list bytes :=
  chunks_aux (length l) n l.

Definition RCON : list N := [1; 2; 4; 8; 16; 32; 64; 128; 27; 54]%N.

Definition rotWord (w : bytes) : bytes :=
  match w with
  | a :: r => r ++ [a]
  | [] => []
  end.

(** The round keys after [prev] (four words), one per round constant. *)
Fixpoint expandKey (rcon : list N) (prev : list bytes) : list (list bytes) :=
  match rcon with
  | [] => []
  | rc :: rcon' =>
      let w0 := nth 0 prev [] in
      let w1 := nth 1 prev [] in
      let w2 := nth 2 prev [] in
      let w3 := nth 3 prev [] in
      let t := xorBytes (map subByte (rotWord w3)) [rc; 0; 0; 0]%N in
      let n0 := xorBytes w0 t in
      let n1 := xorBytes w1 n0 in
      let n2 := xorBytes w2 n1 in
      let n3 := xorBytes w3 n2 in
      [n0; n1; n2; n3] :: expandKey rcon' [n0; n1; n2; n3]
  end.

(** The eleven round keys of a 16-byte key, each of 16 bytes. *)
Definition roundKeys (key : bytes) : list bytes :=
  key :: map (@concat N) (expandKey RCON (chunks 4 key)).

(** The state is kept column by column: byte [4 * c + r] is row [r]
    of column [c]. *)
Definition invShiftRows (st : bytes) : bytes :=
  map (fun i => let r := (i mod 4)%nat in
                let c := (i / 4)%nat in
                nth (4 * ((c + 4 - r) mod 4) + r)%nat st 0%N)
      (seq 0 16).

Definition invMixColumn (col : bytes) : bytes :=
  let a0 := nth 0 col 0%N in
  let a1 := nth 1 col 0%N in
  let a2 := nth 2 col 0%N in
  let a3 := nth 3 col 0%N in
  let mix w x y z :=
    N.lxor (N.lxor (gmul w 14) (gmul x 11)) (N.lxor (gmul y 13) (gmul z 9)) in
  [mix a0 a1 a2 a3; mix a1 a2 a3 a0; mix a2 a3 a0 a1; mix a3 a0 a1 a2].

Definition invMixColumns (st : bytes) : bytes :=
  flat_map invMixColumn (chunks 4 st).

Definition invRound (st rk : bytes) : bytes :=
  invMixColumns (xorBytes (map invSubByte (invShiftRows st)) rk).

(** The inverse cipher of FIPS-197 for a 16-byte key. *)
Definition decryptBlock (key block : bytes) : bytes :=
  match rev (roundKeys key) with
  | rk10 :: rks =>
      let st := fold_left invRound (removelast rks) (xorBytes block rk10) in
      xorBytes (map invSubByte (invShiftRows st)) (last rks [])
  | [] => []
  end.

(** CBC chaining: each decrypted block is xored with the previous
    ciphertext block, the first one with the IV. *)
Fixpoint cbcDecrypt (key prev : bytes) (blocks : list bytes) : bytes :=
  match blocks with
  | [] => []
  | c :: blocks' => xorBytes (decryptBlock key c) prev ++ cbcDecrypt key c blocks'
  end.

End AES.

Definition utf8Bytes (s : string) : bytes :=
  map N_of_ascii (list_ascii_of_string s).

Arguments utf8Bytes s%_string.

Definition KEY : bytes := utf8Bytes "gy1t#b@jl(b$wtme".
Definition IV : bytes := utf8Bytes "xC4dmVJAq14BfntX".

(** The state of the UTF-8 decoder between two bytes: the code point
    under construction, the continuation bytes still needed and the
    range allowed for the next one. *)
Record Utf8State := {
  u_cp : N;
  u_needed : nat;
  u_lower : N;
  u_upper : N
}.

Definition utf8Start : Utf8State :=
  {| u_cp := 0; u_needed := 0; u_lower := 128; u_upper := 191 |}.

Definition REPLACEMENT : N := 0xFFFD.

(** A byte met when no sequence is open. *)
Definition utf8Lead (b : N) : list N * Utf8State :=
  (if b <=? 127 then ([b], utf8Start)
   else if (194 <=? b) && (b <=? 223) then
     ([], {| u_cp := N.land b 31; u_needed := 1; u_lower := 128; u_upper := 191 |})
   else if (224 <=? b) && (b <=? 239) then
     ([], {| u_cp := N.land b 15; u_needed := 2;
             u_lower := if b =? 224 then 160 else 128;
             u_upper := if b =? 237 then 159 else 191 |})
   else if (240 <=? b) && (b <=? 244) then
     ([], {| u_cp := N.land b 7; u_needed := 3;
             u_lower := if b =? 240 then 144 else 128;
             u_upper := if b =? 244 then 143 else 191 |})
   else ([REPLACEMENT], utf8Start))%N.

Definition utf8Step (st : Utf8State) (b : N) : list N * Utf8State :=
  match u_needed st with
  | O => utf8Lead b
  | S n =>
      if ((u_lower st <=? b) && (b <=? u_upper st))%N then
        let cp := (N.shiftl (u_cp st) 6 + N.land b 63)%N in
        match n with
        | O => ([cp], utf8Start)
        | S _ => ([], {| u_cp := cp; u_needed := n; u_lower := 128; u_upper := 191 |})
        end
      else
        let '(out, st') := utf8Lead b in (REPLACEMENT :: out, st')
  end.

Fixpoint utf8Decode (st : Utf8State) (bs : bytes) : list N :=
  match bs with
  | [] => match u_needed st with
          | O => []
          | S _ => [REPLACEMENT]
          end
  | b :: bs' => let '(out, st') := utf8Step st b in out ++ utf8Decode st' bs'
  end.

(** The UTF-16 code units of a code point. *)
Definition utf16Units (cp : N) : jsstring :=
  (if cp <? 0x10000 then [cp]
   else let v := cp - 0x10000 in [0xD800 + v / 1024; 0xDC00 + v mod 1024])%N.

(** [buf.toString('utf8')]: ill-formed sequences decode to U+FFFD. *)
Definition toStringUtf8 (bs : bytes) : jsstring :=
  flat_map utf16Units (utf8Decode utf8Start bs).

(** ** Effects: the network, the console and exceptions *)

Inductive Quality := low | medium | high.

(** The form fields posted to the stream-url endpoint. *)
Record StreamRequest := {
  req_quality : Quality;
  req_track_id : jsstring;
  req_stream_format : jsstring
}.

(** The [data] member of the reply; an absent member is [None]. *)
Record StreamData := {
  stream_path : option jsstring;
  bit_rate : option jsstring;
  track_format : option jsstring
}.

Record ApiReply := {
  api_status : option jsstring;
  data : option StreamData
}.

Record Response := {
  res_ok : bool;
  res_status : N;
  res_text : jsstring
}.

(** What the outside answers.  For [http_get], [None] is a rejected
    promise (a network error).  For [post_stream_url], [None] stands
    for the cases in which the lookup throws before the test of line
    265: [fetch] rejects, the body is not valid JSON so that
    [res.json()] rejects, or the body is the JSON value null, whose
    member access throws.  Every other body is a reply, read at the
    type of line 256: [stream_path] and [bit_rate], when present, are
    strings.  A member [api_status] that is absent or not a string, and
    a member [data] that is absent or not an object, are [None]; so a
    body that is a number, a string or an array is the reply with both
    members absent, for which [null] is returned without a warning. *)
Record World := {
  http_get : jsstring -> option Response;
  post_stream_url : StreamRequest -> option ApiReply
}.

Inductive Exception :=
| FetchRejected
| LookupRejected
| FailedToFetchPlaylist (status : N)
| EmptyHlsPlaylist
| WrongFinalBlockLength.

(** The calls to [console.warn], by message. *)
Inductive Warning :=
| InvalidOffset
| NoHlsPathFound
| FailedToDecrypt (e : Exception)
| NoSegmentsFound
| FailedToFetchStreamUrl (e : Exception).

(** What an execution does, in order.  [EvDecrypt] records a call of
    [decryptStreamPath] by the orchestrator. *)
Inductive Event :=
| EvPost (req : StreamRequest)
| EvGet (url : jsstring)
| EvDecrypt (token : jsstring)
| EvWarn (w : Warning).

Inductive Outcome (A : Type) :=
| Return (a : A)
| Throw (e : Exception).

Arguments Return {A} a.
Arguments Throw {A} e.

Definition Trace := list Event.

(** A computation reads the world, extends the trace and returns or throws. *)
Definition M (A : Type) := World -> Trace -> Outcome A * Trace.

Definition ret {A} (a : A) : M A := fun _ tr => (Return a, tr).

Definition throw {A} (e : Exception) : M A := fun _ tr => (Throw e, tr).

Definition bind {A B} (m : M A) (k : A -> M B) : M B :=
  fun w tr =>
    match m w tr with
    | (Return a, tr') => k a w tr'
    | (Throw e, tr') => (Throw e, tr')
    end.

(** [try { m } catch (e) { handler e }] *)
Definition tryCatch {A} (m : M A) (handler : Exception -> M A) : M A :=
  fun w tr =>
    match m w tr with
    | (Return a, tr') => (Return a, tr')
    | (Throw e, tr') => handler e w tr'
    end.

Definition emit (ev : Event) : M unit := fun _ tr => (Return tt, tr ++ [ev]).

Definition warn (msg : Warning) : M unit := emit (EvWarn msg).

Definition liftOutcome {A} (o : Outcome A) : M A := fun _ tr => (o, tr).

Declare Scope monad_scope.
Delimit Scope monad_scope with monad.
Notation "x <- m ;; k" := (bind m (fun x => k))
  (at level 61, m at next level, right associativity) : monad_scope.
Notation "m ;;; k" := (bind m (fun _ => k))
  (at level 61, right associativity) : monad_scope.
Local Open Scope monad_scope.

Definition run {A} (m : M A) (w : World) : Outcome A * Trace := m w [].

(** A world in which every request is rejected. *)
Definition offline : World :=
  {| http_get := fun _ => None; post_stream_url := fun _ => None |}.

(** [fetch(url, ...)] of a playlist. *)
Definition fetch (target : jsstring) : M Response :=
  emit (EvGet target) ;;;
  fun w tr => match http_get w target with
              | Some res => (Return res, tr)
              | None => (Throw FetchRejected, tr)
              end.

(** [fetch(url, { method: 'POST', ... })] followed by [res.json()]
    and the cast of line 256. *)
Definition postStreamUrl (req : StreamRequest) : M ApiReply :=
  emit (EvPost req) ;;;
  fun w tr => match post_stream_url w req with
              | Some reply => (Return reply, tr)
              | None => (Throw LookupRejected, tr)
              end.

Definition isGet (ev : Event) : bool :=
  match ev with
  | EvGet _ => true
  | _ => false
  end.

Definition isPost (ev : Event) : bool :=
  match ev with
  | EvPost _ => true
  | _ => false
  end.

(** Lines joined by a line feed, as a playlist body. *)
Fixpoint joinLines (lines : list jsstring) : jsstring :=
  match lines with
  | [] => []
  | [l] => l
  | l :: rest => l ++ ch_newline :: joinLines rest
  end.

(** Lines joined by a carriage return and a line feed. *)
Fixpoint joinCRLF (lines : list jsstring) : jsstring :=
  match lines with
  | [] => []
  | [l] => l
  | l :: rest => l ++ 13%N :: ch_newline :: joinCRLF rest
  end.

(** The lines of a response body, as [fetchPlaylist] returns them. *)
Definition bodyLines (text : jsstring) : list jsstring :=
  map trim (split ch_newline text).

(** A world that answers each playlist URL of [pages] with status 200
    and the paired body, and rejects every other request. *)
Definition pagesWorld (pages : list (jsstring * jsstring)) : World :=
  {| http_get := fun u =>
       option_map (fun p => {| res_ok := true; res_status := 200; res_text := snd p |})
                  (find (fun p => strEq (fst p) u) pages);
     post_stream_url := fun _ => None |}.

(** A world in which the lookup answers [reply] and every playlist
    request is answered with status 200 and the body [body]. *)
Definition worldOf (reply : option ApiReply) (body : jsstring) : World :=
  {| http_get := fun _ => Some {| res_ok := true; res_status := 200; res_text := body |};
     post_stream_url := fun _ => reply |}.

(** A successful reply of the lookup that carries [token]. *)
Definition successReply (token : jsstring) : ApiReply :=
  {| api_status := Some (js "success");
     data := Some {| stream_path := Some token;
                     bit_rate := Some (js "128");
                     track_format := Some (js "mp4") |} |}.

(** A token that decrypts to [/hls/12/3456/track.mp4.master.m3u8]. *)
Definition sampleToken : jsstring :=
  js "3abcdefghijklmnopqrVVtnoDOUrXzbFsj91S4lgmBp4aG2Y8fF9JENtDQNdnfyxKm0lThlTq1spaKzEW/D".

Definition sampleHlsUrl : jsstring :=
  js "https://vodhlsgaana-ebw.akamaized.net/hls/12/3456/track.mp4.master.m3u8".

(** ** The manifest resolver *)

(** Lines 66-73. *)
Definition fetchPlaylist (target : jsstring) : M (list jsstring) :=
  res <- fetch target ;;
  if negb (res_ok res) then throw (FailedToFetchPlaylist (res_status res))
  else ret (map trim (split ch_newline (res_text res))).

(** The test of line 130. *)
Definition isNestedPlaylistLine (line : jsstring) : bool :=
  match line with
  | [] => false
  | _ :: _ => negb (startsWith line [ch_hash]) && isPlaylistName line
  end.

(** ToBoolean on a string that may be [undefined]. *)
Definition truthyString (s : option jsstring) : bool :=
  match s with
  | Some (_ :: _) => true
  | _ => false
  end.

(** Lines 121-144. *)
Definition parseHlsManifest (masterUrl : jsstring) : M HlsManifest :=
  masterLines <- fetchPlaylist masterUrl ;;
  if (length masterLines =? 0)%nat then throw EmptyHlsPlaylist
  else
    let baseUrl := getBaseUrl masterUrl in
    let streamPlaylistUrl :=
      option_map (resolveUrl baseUrl) (find isNestedPlaylistLine masterLines) in
    match streamPlaylistUrl with
    | Some (c :: u) =>
        streamLines <- fetchPlaylist (c :: u) ;;
        ret (parseStreamPlaylist (c :: u) streamLines)
    | _ => ret (parseStreamPlaylist masterUrl masterLines)
    end.

(** ** The path decryptor *)

(** [parseInt(s, 10)] where [s] is a string of at most one code unit or
    [undefined]; [None] is [NaN]. *)
Definition parseInt10 (s : option N) : option Z :=
  match s with
  | Some c => if isDigit c then Some (Z.of_N (c - 48)) else None
  | None => None
  end.

(** [decipher.update(ciphertext)]: the complete blocks, decrypted. *)
Definition decipherUpdate (ciphertext : bytes) : bytes :=
  AES.cbcDecrypt KEY IV (AES.chunks 16 ciphertext).

(** [decipher.final()] with automatic padding off: an incomplete last
    block is an error, and nothing is left to return otherwise. *)
Definition decipherFinal (ciphertext : bytes) : Outcome bytes :=
  if (length ciphertext mod 16 =? 0)%nat then Return []
  else Throw WrongFinalBlockLength.

Definition isPrintable (c : N) : bool := ((32 <=? c) && (c <=? 126))%N.

(** Lines 174-181. *)
Definition cleanText (decrypted : bytes) : jsstring :=
  let rawText := trim (filter (fun c => negb (c =? 0)%N) (toStringUtf8 decrypted)) in
  filter isPrintable rawText.

(** Lines 184-191. *)
Definition extractHlsPath (rawText : jsstring) : M jsstring :=
  if includes rawText (js "/hls/") then
    let pathStart := indexOf rawText (js "hls/") 0 in
    let cleanPath := substringFrom rawText pathStart in
    ret (HLS_BASE_URL ++ cleanPath)
  else
    warn NoHlsPathFound ;;; ret [].

(** The body of the [try] block, lines 153-191. *)
Definition decryptStreamPath_try (encryptedData : jsstring) : M jsstring :=
  match parseInt10 (nth_error encryptedData 0) with
  | None => warn InvalidOffset ;;; ret []
  | Some offset =>
      let ciphertextB64 := substringFrom encryptedData (offset + 16) in
      let ciphertext := base64_decode (ciphertextB64 ++ js "==") in
      let decrypted := decipherUpdate ciphertext in
      final <- liftOutcome (decipherFinal ciphertext) ;;
      extractHlsPath (cleanText (decrypted ++ final))
  end.

(** Lines 151-196. *)
Definition decryptStreamPath (encryptedData : jsstring) : M jsstring :=
  tryCatch (decryptStreamPath_try encryptedData)
           (fun e => warn (FailedToDecrypt e) ;;; ret []).

(** ** The orchestrator *)

Module MediaUrl.
Record t := {
  quality : Quality;
  bitRate : jsstring;
  hlsUrl : jsstring;
  url : jsstring;
  initUrl : option jsstring;
  segments : list SegmentInfo;
  durationMs : number;
  format : jsstring
}.
End MediaUrl.

(** Lines 279-283. *)
Definition detectFormat (firstSegmentUrl : jsstring) : jsstring :=
  if includes firstSegmentUrl (js ".m4s") then js "m4s"
  else if includes firstSegmentUrl (js ".mp4") then js "mp4"
  else if includes firstSegmentUrl (js ".ts") then js "ts"
  else if includes firstSegmentUrl (js ".aac") then js "aac"
  else js "m4a".

(** [s || ''] on a string that may be [undefined]. *)
Definition orEmpty (s : option jsstring) : jsstring :=
  match s with
  | Some s' => s'
  | None => []
  end.

(** [data.api_status === 'success'] *)
Definition isSuccess (reply : ApiReply) : bool :=
  match api_status reply with
  | Some status => strEq status (js "success")
  | None => false
  end.

(** [data.data?.stream_path] and [data.data.bit_rate] *)
Definition replyStreamPath (reply : ApiReply) : option jsstring :=
  match data reply with
  | Some d => stream_path d
  | None => None
  end.

Definition replyBitRate (reply : ApiReply) : option jsstring :=
  match data reply with
  | Some d => bit_rate d
  | None => None
  end.

(** The form posted at lines 238-242. *)
Definition lookupRequest (trackId : jsstring) (q : Quality) : StreamRequest :=
  {| req_quality := q; req_track_id := trackId; req_stream_format := js "mp4" |}.

(** The descriptor assembled at lines 285-294. *)
Definition descriptor (q : Quality) (reply : ApiReply) (hlsUrl : jsstring)
    (manifest : HlsManifest) (first : SegmentInfo) : MediaUrl.t :=
  {| MediaUrl.quality := q;
     MediaUrl.bitRate := orEmpty (replyBitRate reply);
     MediaUrl.hlsUrl := hlsUrl;
     MediaUrl.url := url first;
     MediaUrl.initUrl := initSegmentUrl manifest;
     MediaUrl.segments := segments manifest;
     MediaUrl.durationMs := totalDurationMs manifest;
     MediaUrl.format := detectFormat (url first) |}.

(** The body of the [try] block, lines 237-298; [None] is [null]. *)
Definition fetchStreamUrl_try (trackId : jsstring) (q : Quality) : M (option MediaUrl.t) :=
  reply <- postStreamUrl (lookupRequest trackId q) ;;
  if isSuccess reply && truthyString (replyStreamPath reply) then
    let token := orEmpty (replyStreamPath reply) in
    emit (EvDecrypt token) ;;;
    hlsUrl <- decryptStreamPath token ;;
    match hlsUrl with
    | [] => ret None
    | _ :: _ =>
        manifest <- parseHlsManifest hlsUrl ;;
        match segments manifest with
        | [] => warn NoSegmentsFound ;;; ret None
        | first :: _ => ret (Some (descriptor q reply hlsUrl manifest first))
        end
    end
  else ret None.

(** Lines 232-303. *)
Definition fetchStreamUrl (trackId : jsstring) (q : Quality) : M (option MediaUrl.t) :=
  tryCatch (fetchStreamUrl_try trackId q)
           (fun e => warn (FailedToFetchStreamUrl e) ;;; ret None).

(** Lines 310-321. *)
Definition getMediaUrls (trackId : jsstring) : M (list MediaUrl.t) :=
  highQuality <- fetchStreamUrl trackId high ;;
  match highQuality with
  | Some m => ret [m]
  | None => ret []
  end.

(** * Properties *)

(** Membership of a code unit in a literal string is refuted by
    comparing it with each code unit of the literal. *)
Ltac not_in_literal := vm_compute; intuition discriminate.

(** ** Checks of the embedding on known values *)

(** FIPS-197, appendix C.1. *)
Example aes128_known_answer :
  AES.decryptBlock
    [0; 1; 2; 3; 4; 5; 6; 7; 8; 9; 10; 11; 12; 13; 14; 15]%N
    [0x69; 0xc4; 0xe0; 0xd8; 0x6a; 0x7b; 0x04; 0x30;
     0xd8; 0xcd; 0xb7; 0x80; 0x70; 0xb4; 0xc5; 0x5a]%N
  = [0x00; 0x11; 0x22; 0x33; 0x44; 0x55; 0x66; 0x77;
     0x88; 0x99; 0xaa; 0xbb; 0xcc; 0xdd; 0xee; 0xff]%N.
Proof. vm_compute. reflexivity. Qed.

Example base64_known_answer :
  base64_decode (js "aGVsbG8gd29ybGQ==") = utf8Bytes "hello world".
Proof. reflexivity. Qed.

(** A code unit above 255 is read by its low byte: U+0141 is read as
    the digit A, and U+013D ends the payload as a padding character. *)
Example base64_low_byte :
  base64_decode (js "QUJDR" ++ [0x141%N]) = utf8Bytes "ABCD"
  /\ base64_decode (js "QUJD" ++ [0x13D%N] ++ js "RA") = utf8Bytes "ABC"
  /\ base64_decode (js "QU JD" ++ [0xE9%N] ++ js "RA") = utf8Bytes "ABCD".
Proof. repeat split; reflexivity. Qed.

(** An ill-formed sequence decodes to U+FFFD and does not swallow the
    space that follows it. *)
Example utf8_known_answer :
  toStringUtf8 [0xE2; 0x82; 0xAC; 0x41; 0xE2; 0x80; 0x20; 0xF0; 0x9F; 0x98; 0x80]%N
  = [0x20AC; 0x41; 0xFFFD; 0x20; 0xD83D; 0xDE00]%N.
Proof. reflexivity. Qed.

Example num_is_binary_normalize :
  num 6000 = binary_normalize prec emax 6000 0 false
  /\ num 1000 = binary_normalize prec emax 1000 0 false
  /\ num (-5000) = binary_normalize prec emax (-5000) 0 false.
Proof. repeat split; reflexivity. Qed.

(** [0.1] is [0x1.999999999999ap-4]. *)
Example parseFloat_known_answers :
  parseFloat (js "0.1") = S754_finite false 0x1999999999999a (-56)
  /\ parseFloat (js "4.0") = num 4
  /\ parseFloat (js "  -5xyz") = num (-5)
  /\ parseFloat (js "1e3") = num 1000
  /\ parseFloat (js "5e-324") = S754_finite false 1 (-1074)
  /\ parseFloat (js "1.7976931348623159e308") = S754_infinity false
  /\ parseFloat (js "abc") = S754_nan
  /\ parseFloat (js ".") = S754_nan.
Proof. repeat split; vm_compute; reflexivity. Qed.

Example Math_round_known_answers :
  Math_round (parseFloat (js "2.5")) = num 3
  /\ Math_round (parseFloat (js "-2.5")) = num (-2)
  /\ Math_round (parseFloat (js "-0.5")) = S754_zero true
  /\ Math_round (parseFloat (js "0.49999999999999994")) = num 0
  /\ Math_round (num_mul (parseFloat (js "1.0005")) (num 1000)) = num 1001.
Proof. repeat split; vm_compute; reflexivity. Qed.

Example extinfDuration_known_answers :
  extinfDuration (js "#EXTINF:4.0,") = num 4000
  /\ extinfDuration (js "#EXTINF:9.984,title") = num 9984
  /\ extinfDuration (js "#EXTINF:abc,") = num 6000
  /\ extinfDuration (js "#EXTINF:0,") = num 6000.
Proof. repeat split; vm_compute; reflexivity. Qed.

(** A master playlist that names a media playlist, which has an init
    segment and three segments of 4 s, 4 s and 2 s. *)
Example nested_playlist_scenario :
  let master := js "https://cdn.example/hls/a/master.m3u8" in
  let media := js "https://cdn.example/hls/a/stream.m3u8" in
  let w :=
    {| http_get := fun u =>
         Some {| res_ok := true; res_status := 200;
                 res_text :=
                   if strEq u master then
                     joinLines [js "#EXTM3U"; js "#EXT-X-STREAM-INF:BANDWIDTH=128000";
                                js "stream.m3u8"]
                   else
                     joinLines [js "#EXTM3U";
                                js "#EXT-X-MAP:URI=" ++ [ch_quote] ++ js "init.mp4" ++ [ch_quote];
                                js "#EXTINF:4.0,"; js "seg0.m4s";
                                js "#EXTINF:4.0,"; js "seg1.m4s";
                                js "#EXTINF:2.0,"; js "seg2.m4s";
                                js "#EXT-X-ENDLIST"] |};
       post_stream_url := fun _ => None |} in
  run (parseHlsManifest master) w
  = (Return
       {| initSegmentUrl := Some (js "https://cdn.example/hls/a/init.mp4");
          segments :=
            [{| url := js "https://cdn.example/hls/a/seg0.m4s"; durationMs := num 4000 |};
             {| url := js "https://cdn.example/hls/a/seg1.m4s"; durationMs := num 4000 |};
             {| url := js "https://cdn.example/hls/a/seg2.m4s"; durationMs := num 2000 |}];
          totalDurationMs := num 10000 |},
     [EvGet master; EvGet media]).
Proof. vm_compute. reflexivity. Qed.

(** ** Strings and indices *)

Lemma startsWith_app (pat r : jsstring) : startsWith (pat ++ r) pat = true.
Proof.
  induction pat as [|p pat IH]; simpl; [reflexivity|].
  now rewrite N.eqb_refl.
Qed.

Lemma startsWith_inv (s pat : jsstring) :
  startsWith s pat = true -> exists r, s = pat ++ r.
Proof.
  revert s; induction pat as [|p pat IH]; intros s H.
  - now exists s.
  - destruct s as [|c s]; simpl in H; [discriminate|].
    apply andb_true_iff in H as [Hc Hs].
    apply N.eqb_eq in Hc; subst c.
    destruct (IH _ Hs) as [r ->]. now exists r.
Qed.

Lemma startsWith_head (c p : N) (s pat : jsstring) :
  c <> p -> startsWith (c :: s) (p :: pat) = false.
Proof.
  intros H; simpl. apply N.eqb_neq in H. now rewrite H.
Qed.

Lemma strEq_eq (a b : jsstring) : strEq a b = true <-> a = b.
Proof.
  revert b; induction a as [|x a IH]; intros [|y b]; simpl;
    try (split; [discriminate | discriminate]); try tauto.
  rewrite andb_true_iff, N.eqb_eq, IH.
  split; [intros [-> ->]; reflexivity | intros H; inversion H; auto].
Qed.

Lemma clampIndex_inside (s : jsstring) (i : Z) :
  0 <= i <= jslength s -> clampIndex s i = Z.to_nat i.
Proof. intros H; unfold clampIndex; f_equal; lia. Qed.

Lemma substring_inside (s : jsstring) (a b : Z) :
  0 <= a <= b -> b <= jslength s ->
  substring s a b = firstn (Z.to_nat (b - a)) (skipn (Z.to_nat a) s).
Proof.
  intros Ha Hb; unfold substring.
  rewrite !clampIndex_inside by lia.
  replace (Nat.min (Z.to_nat a) (Z.to_nat b)) with (Z.to_nat a) by lia.
  replace (Nat.max (Z.to_nat a) (Z.to_nat b) - Z.to_nat a)%nat
    with (Z.to_nat (b - a)) by lia.
  reflexivity.
Qed.

Lemma substring_prefix (p r : jsstring) :
  substring (p ++ r) 0 (jslength p) = p.
Proof.
  rewrite substring_inside; unfold jslength in *.
  - simpl. rewrite Z.sub_0_r, Nat2Z.id.
    rewrite firstn_app, firstn_all, Nat.sub_diag. simpl. apply app_nil_r.
  - lia.
  - rewrite length_app; lia.
Qed.

Lemma substringFrom_suffix (p r : jsstring) :
  substringFrom (p ++ r) (jslength p) = r.
Proof.
  unfold substringFrom. rewrite substring_inside; unfold jslength.
  - rewrite Nat2Z.id, skipn_app, skipn_all, Nat.sub_diag. simpl.
    apply firstn_all2. rewrite length_app. lia.
  - rewrite length_app; lia.
  - lia.
Qed.

(** The first piece of a split is the text before the first separator. *)
Lemma split_first (sep : N) (p : jsstring) :
  ~ In sep p ->
  (forall q, nth 0 (split sep (p ++ sep :: q)) [] = p)
  /\ nth 0 (split sep p) [] = p.
Proof.
  induction p as [|c p IH]; intros Hp.
  - split; [intros q|]; simpl; [now rewrite N.eqb_refl | reflexivity].
  - assert (Hc : (c =? sep)%N = false)
      by (apply N.eqb_neq; intros ->; apply Hp; now left).
    destruct IH as [IH1 IH2]; [intros H; apply Hp; now right|].
    split; [intros q; specialize (IH1 q)|]; simpl; rewrite Hc.
    + destruct (split sep (p ++ sep :: q)); simpl in *; now subst.
    + destruct (split sep p); simpl in *; now subst.
Qed.

Lemma split_nonempty (sep : N) (s : jsstring) : split sep s <> [].
Proof.
  destruct s as [|c s]; simpl; [discriminate|].
  destruct (c =? sep)%N; [discriminate|].
  destruct (split sep s); discriminate.
Qed.

(** No match starts inside [p] when the first code unit of the pattern
    does not occur in it. *)
Lemma indexOf_from_skip (p rest pat : jsstring) (c : N) (i : Z) :
  ~ In c p -> startsWith rest (c :: pat) = true ->
  indexOf_from (p ++ rest) (c :: pat) i = i + jslength p.
Proof.
  revert i; induction p as [|a p IH]; intros i Hp Hr.
  - simpl app. unfold jslength; simpl length.
    destruct rest; [discriminate|]. cbn [indexOf_from]. rewrite Hr; lia.
  - change ((a :: p) ++ rest) with (a :: (p ++ rest)).
    cbn [indexOf_from]. rewrite startsWith_head
      by (intros ->; apply Hp; now left).
    rewrite IH; [|intros H; apply Hp; now right|assumption].
    unfold jslength; simpl length; lia.
Qed.

Lemma indexOf_at (p rest pat : jsstring) (from : Z) :
  from = jslength p ->
  indexOf (p ++ rest) pat from = indexOf_from rest pat from.
Proof.
  intros ->; unfold indexOf.
  rewrite clampIndex_inside.
  - unfold jslength. rewrite Nat2Z.id, skipn_app, skipn_all, Nat.sub_diag.
    reflexivity.
  - unfold jslength; rewrite length_app; lia.
Qed.

Lemma lastIndexOf_from_none (f : jsstring) (c : N) (i acc : Z) :
  ~ In c f -> lastIndexOf_from f [c] i acc = acc.
Proof.
  revert i acc; induction f as [|a f IH]; intros i acc Hf; [reflexivity|].
  cbn [lastIndexOf_from]. rewrite startsWith_head
    by (intros ->; apply Hf; now left).
  apply IH. intros H; apply Hf; now right.
Qed.

(** The last occurrence of [c] in [x ++ c :: f] is at [length x] when
    [c] does not occur in [f]. *)
Lemma lastIndexOf_from_last (x f : jsstring) (c : N) (i acc : Z) :
  ~ In c f ->
  lastIndexOf_from (x ++ c :: f) [c] i acc = i + jslength x.
Proof.
  revert i acc; induction x as [|a x IH]; intros i acc Hf.
  - simpl app. cbn [lastIndexOf_from startsWith]. rewrite N.eqb_refl. simpl.
    rewrite lastIndexOf_from_none by assumption. unfold jslength; simpl; lia.
  - change ((a :: x) ++ c :: f) with (a :: (x ++ c :: f)).
    cbn [lastIndexOf_from]. rewrite IH by assumption.
    unfold jslength; simpl length; lia.
Qed.

(** ** URL resolution *)

Lemma getBaseUrl_directory (x file query : jsstring) :
  ~ In ch_question x -> ~ In ch_question file -> ~ In ch_slash file ->
  (query = [] \/ exists q, query = ch_question :: q) ->
  getBaseUrl ((x ++ [ch_slash]) ++ file ++ query) = x ++ [ch_slash].
Proof.
  intros Hx Hfq Hfs Hq. unfold getBaseUrl.
  assert (Hnq : ~ In ch_question ((x ++ [ch_slash]) ++ file)).
  { rewrite !in_app_iff. simpl. intros [[H|[H|[]]]|H]; auto. discriminate H. }
  assert (Hhead : nth 0 (split ch_question ((x ++ [ch_slash]) ++ file ++ query)) []
                  = (x ++ [ch_slash]) ++ file).
  { destruct (split_first ch_question _ Hnq) as [H1 H2].
    destruct Hq as [-> | [q ->]].
    - now rewrite app_nil_r.
    - rewrite app_assoc. apply H1. }
  rewrite Hhead.
  assert (Hlast : lastIndexOf ((x ++ [ch_slash]) ++ file) [ch_slash] = jslength x).
  { unfold lastIndexOf. rewrite <- !app_assoc. simpl app.
    now rewrite lastIndexOf_from_last. }
  rewrite Hlast.
  assert (Hlen : jslength x + 1 = jslength (x ++ [ch_slash])).
  { unfold jslength. rewrite length_app. simpl. lia. }
  replace (jslength x =? -1) with false
    by (symmetry; apply Z.eqb_neq; unfold jslength; lia).
  simpl negb. cbv iota. rewrite Hlen. apply substring_prefix.
Qed.

Lemma resolveUrl_absolute (baseUrl path : jsstring) :
  startsWith path (js "http://") || startsWith path (js "https://") = true ->
  resolveUrl baseUrl path = path.
Proof. intros H; unfold resolveUrl; now rewrite H. Qed.

Lemma resolveUrl_relative (baseUrl path : jsstring) :
  startsWith path (js "http://") = false ->
  startsWith path (js "https://") = false ->
  startsWith path [ch_slash] = false ->
  resolveUrl baseUrl path = baseUrl ++ path.
Proof. intros H1 H2 H3; unfold resolveUrl; now rewrite H1, H2, H3. Qed.

Lemma resolveUrl_root (scheme authority rest path : jsstring) :
  ~ In ch_colon scheme -> ~ In ch_slash authority ->
  startsWith path [ch_slash] = true ->
  resolveUrl (scheme ++ js "://" ++ authority ++ ch_slash :: rest) path
  = scheme ++ js "://" ++ authority ++ path.
Proof.
  intros Hs Ha Hp. unfold resolveUrl.
  destruct path as [|c path]; [discriminate|].
  simpl in Hp. rewrite andb_true_r in Hp. apply N.eqb_eq in Hp; subst c.
  replace (startsWith (ch_slash :: path) (js "http://")) with false by reflexivity.
  replace (startsWith (ch_slash :: path) (js "https://")) with false by reflexivity.
  replace (startsWith (ch_slash :: path) [ch_slash]) with true by reflexivity.
  simpl orb. cbv iota.
  assert (Hse : indexOf (scheme ++ js "://" ++ authority ++ ch_slash :: rest)
                        (js "://") 0 = jslength scheme).
  { unfold indexOf, clampIndex. 
    replace (Z.to_nat (Z.min (Z.max 0 0) _)) with 0%nat by (unfold jslength; lia).
    simpl skipn. change (js "://") with (ch_colon :: js "//").
    rewrite indexOf_from_skip; [simpl; lia|assumption|reflexivity]. }
  rewrite Hse.
  assert (Hps : indexOf (scheme ++ js "://" ++ authority ++ ch_slash :: rest)
                        [ch_slash] (jslength scheme + 3)
                = jslength (scheme ++ js "://" ++ authority)).
  { rewrite (app_assoc scheme (js "://")).
    rewrite indexOf_at
      by (unfold jslength; rewrite length_app; simpl length; lia).
    rewrite indexOf_from_skip; [|assumption|reflexivity].
    unfold jslength. rewrite !length_app. simpl length. lia. }
  rewrite Hps.
  replace (jslength scheme =? -1) with false
    by (symmetry; apply Z.eqb_neq; unfold jslength; lia).
  replace (jslength (scheme ++ js "://" ++ authority) =? -1) with false
    by (symmetry; apply Z.eqb_neq; unfold jslength; lia).
  simpl negb. cbv iota.
  replace (scheme ++ js "://" ++ authority ++ ch_slash :: rest)
    with ((scheme ++ js "://" ++ authority) ++ ch_slash :: rest)
    by (now rewrite <- !app_assoc).
  rewrite substring_prefix. now rewrite <- !app_assoc.
Qed.

(** C6, counterexample.  A base URL may consist of a scheme and an
    authority only.  [getBaseUrl] then cuts it after the two slashes of
    the scheme, and a root-relative reference is appended to that
    remainder: the authority [host] is lost, so the result is not the
    reference joined to the scheme and authority of the base URL. *)
Lemma resolveUrl_root_relative_counterexample :
  getBaseUrl (js "https://host") = js "https://"
  /\ resolveUrl (getBaseUrl (js "https://host")) (js "/media/seg0.ts")
     = js "https:///media/seg0.ts"
  /\ resolveUrl (getBaseUrl (js "https://host")) (js "/media/seg0.ts")
     <> js "https://host" ++ js "/media/seg0.ts".
Proof. repeat split; try reflexivity. vm_compute. discriminate. Qed.

(** C6, as amended.  An absolute http(s) reference is returned
    unchanged against every base URL.  For a base URL with a slash
    before its query string, written [prefix / file query] where [file]
    has no slash and [query] is empty or starts with a question mark:
    [getBaseUrl] returns the directory prefix, up to and including that
    last slash; a reference that is not absolute and does not start
    with a slash is appended to the directory prefix; and when the
    directory prefix has the form scheme://authority/dir, a reference
    that starts with a slash is joined to scheme://authority, the path
    of the base being discarded. *)
Theorem resolveUrl_against_manifest_url (prefix file query ref : jsstring) :
  ~ In ch_question prefix -> ~ In ch_slash file -> ~ In ch_question file ->
  (query = [] \/ exists q, query = ch_question :: q) ->
  let base := prefix ++ [ch_slash] ++ file ++ query in
  let directory := prefix ++ [ch_slash] in
  getBaseUrl base = directory
  /\ (forall anyBase,
        startsWith ref (js "http://") || startsWith ref (js "https://") = true ->
        resolveUrl (getBaseUrl anyBase) ref = ref)
  /\ (startsWith ref (js "http://") = false ->
      startsWith ref (js "https://") = false ->
      startsWith ref [ch_slash] = false ->
      resolveUrl (getBaseUrl base) ref = directory ++ ref)
  /\ (forall scheme authority dir,
        directory = scheme ++ js "://" ++ authority ++ [ch_slash] ++ dir ->
        ~ In ch_colon scheme -> ~ In ch_slash authority ->
        startsWith ref [ch_slash] = true ->
        resolveUrl (getBaseUrl base) ref = scheme ++ js "://" ++ authority ++ ref).
Proof.
  intros Hpq Hfs Hfq Hq base directory.
  assert (Hbase : getBaseUrl base = directory).
  { subst base directory. rewrite app_assoc. now apply getBaseUrl_directory. }
  split; [exact Hbase|]. split; [|split].
  - intros anyBase H. now apply resolveUrl_absolute.
  - intros H1 H2 H3. rewrite Hbase. now apply resolveUrl_relative.
  - intros scheme authority dir Hdir Hs Ha Href.
    rewrite Hbase, Hdir. simpl app. now apply resolveUrl_root.
Qed.

Lemma resolveUrl_against_manifest_url_witness :
  resolveUrl (getBaseUrl (js "https://host/a/b/playlist.m3u8?x=1")) (js "seg0.ts")
  = js "https://host/a/b/seg0.ts"
  /\ resolveUrl (getBaseUrl (js "https://host/a/b/playlist.m3u8?x=1"))
                (js "/media/seg0.ts")
     = js "https://host/media/seg0.ts"
  /\ resolveUrl (getBaseUrl (js "https://host/a/b/playlist.m3u8?x=1"))
                (js "https://other/seg.ts")
     = js "https://other/seg.ts".
Proof.
  pose proof (fun ref =>
    resolveUrl_against_manifest_url (js "https://host/a/b") (js "playlist.m3u8")
      (js "?x=1") ref
      ltac:(not_in_literal) ltac:(not_in_literal) ltac:(not_in_literal)
      (or_intror (ex_intro _ (js "x=1") eq_refl))) as H.
  split; [|split].
  - destruct (H (js "seg0.ts")) as (_ & _ & Hrel & _).
    exact (Hrel eq_refl eq_refl eq_refl).
  - destruct (H (js "/media/seg0.ts")) as (_ & _ & _ & Hroot).
    exact (Hroot (js "https") (js "host") (js "a/b/") eq_refl
             ltac:(not_in_literal) ltac:(not_in_literal) eq_refl).
  - destruct (H (js "https://other/seg.ts")) as (_ & Habs & _).
    exact (Habs (js "https://host/a/b/playlist.m3u8?x=1") eq_refl).
Defined.

(** ** Numbers *)

Lemma iter_xO_pow (p d : positive) :
  Zpos (Pos.iter xO p d) = Zpos p * 2 ^ Zpos d.
Proof.
  induction d as [|d IH] using Pos.peano_ind.
  - simpl. lia.
  - rewrite Pos.iter_succ, Pos2Z.inj_succ, Z.pow_succ_r by lia.
    rewrite Pos2Z.inj_xO, IH. lia.
Qed.

Lemma int_to_number_integer (s : bool) (k : Z) :
  isInteger (int_to_number s k) = true.
Proof.
  destruct k as [|p|p]; try reflexivity.
  unfold int_to_number, shl_align.
  destruct (Zpos (digits2_pos p) - prec - 0) as [|q|q] eqn:E; try reflexivity.
  assert (Hq : Zpos (digits2_pos p) - prec = Zneg q) by lia.
  rewrite Hq. cbn [isInteger]. rewrite iter_xO_pow. change (- Zneg q) with (Zpos q).
  rewrite Z.mod_mul by (apply Z.pow_nonzero; lia).
  apply orb_true_r.
Qed.

(** [Math.round] returns an integer, an infinity or [NaN]. *)
Lemma Math_round_integer (x : number) :
  isInteger (Math_round x) = true \/ isInfinite x = true \/ x = S754_nan.
Proof.
  destruct x as [s|s| |s m e]; simpl; auto.
  left. destruct (0 <=? e) eqn:E.
  - simpl. now rewrite E.
  - apply int_to_number_integer.
Qed.

Lemma Math_round_infinite (x : number) :
  isInfinite x = true -> Math_round x = x.
Proof. destruct x; simpl; congruence. Qed.

Lemma num_or_whole (x y : number) :
  (isInteger x = true \/ isInfinite x = true \/ x = S754_nan) ->
  wholeDuration y -> wholeDuration (num_or x y).
Proof.
  intros Hx Hy. unfold num_or.
  destruct (num_truthy x) eqn:T; [|exact Hy].
  split; [exact T|].
  destruct Hx as [H|[H|H]]; auto. subst x. discriminate T.
Qed.

Lemma DEFAULT_DURATION_whole : wholeDuration DEFAULT_DURATION.
Proof. split; [reflexivity | left; reflexivity]. Qed.

Lemma extinfDuration_whole (line : jsstring) : wholeDuration (extinfDuration line).
Proof.
  unfold extinfDuration. apply num_or_whole; [|apply DEFAULT_DURATION_whole].
  destruct (Math_round_integer
              (num_mul (parseFloat (durationStr line)) (num 1000))) as [H|[H|H]].
  - now left.
  - right; left. now rewrite Math_round_infinite.
  - right; right. now rewrite H.
Qed.

(** ** The media playlist scan *)

Lemma not_comment_not_directive (line directive : jsstring) :
  startsWith line [ch_hash] = false ->
  startsWith line (ch_hash :: directive) = false.
Proof.
  destruct line as [|c l]; simpl; [reflexivity|].
  rewrite andb_true_r. now intros ->.
Qed.

(** A segment line is appended with the pending duration, which is
    then reset. *)
Lemma scanLine_segment (baseUrl : jsstring) (st : ScanState) (line : jsstring) :
  isSegmentLine line = true ->
  scanLine baseUrl st line =
  {| st_init := st_init st;
     st_segments := st_segments st ++
       [{| url := resolveUrl baseUrl line; durationMs := st_duration st |}];
     st_duration := DEFAULT_DURATION |}.
Proof.
  intros H. destruct line as [|c l]; [discriminate|].
  unfold isSegmentLine in H. unfold scanLine. rewrite H.
  apply andb_true_iff in H as [Hh _]. apply negb_true_iff in Hh.
  change (js "#EXT-X-MAP:") with (ch_hash :: js "EXT-X-MAP:").
  change (js "#EXTINF:") with (ch_hash :: js "EXTINF:").
  now rewrite !not_comment_not_directive by assumption.
Qed.

(** A duration directive replaces the pending duration and appends nothing. *)
Lemma scanLine_extinf (baseUrl : jsstring) (st : ScanState) (line : jsstring) :
  startsWith line (js "#EXTINF:") = true ->
  scanLine baseUrl st line =
  {| st_init := st_init st;
     st_segments := st_segments st;
     st_duration := extinfDuration line |}.
Proof.
  intros H. destruct (startsWith_inv _ _ H) as [r Hr].
  destruct line as [|c l]; [discriminate|].
  unfold scanLine. rewrite H.
  replace (startsWith (c :: l) (js "#EXT-X-MAP:")) with false
    by (rewrite Hr; reflexivity).
  replace (startsWith (c :: l) [ch_hash]) with true
    by (rewrite Hr; reflexivity).
  reflexivity.
Qed.

(** Any other line leaves the segments and the pending duration as they are. *)
Lemma scanLine_other (baseUrl : jsstring) (st : ScanState) (line : jsstring) :
  isSegmentLine line = false -> startsWith line (js "#EXTINF:") = false ->
  st_segments (scanLine baseUrl st line) = st_segments st
  /\ st_duration (scanLine baseUrl st line) = st_duration st.
Proof.
  intros Hs Hd. destruct line as [|c l]; [now split|].
  unfold scanLine. rewrite Hd.
  unfold isSegmentLine in Hs. rewrite Hs. now split.
Qed.

Lemma scanLines_other (baseUrl : jsstring) (lines : list jsstring) :
  forall st, Forall otherLine lines ->
  st_segments (scanLines baseUrl st lines) = st_segments st
  /\ st_duration (scanLines baseUrl st lines) = st_duration st.
Proof.
  induction lines as [|l lines IH]; intros st H; [now split|].
  inversion H as [|? ? [Hs Hd] Hrest]; subst.
  destruct (scanLine_other baseUrl st l Hs Hd) as [E1 E2].
  destruct (IH (scanLine baseUrl st l) Hrest) as [E3 E4].
  change (scanLines baseUrl st (l :: lines))
    with (scanLines baseUrl (scanLine baseUrl st l) lines).
  split; congruence.
Qed.

Lemma scanLine_not_segment (baseUrl : jsstring) (st : ScanState) (line : jsstring) :
  isSegmentLine line = false ->
  st_segments (scanLine baseUrl st line) = st_segments st.
Proof.
  intros H. destruct line as [|c l]; [reflexivity|].
  unfold scanLine. unfold isSegmentLine in H. now rewrite H.
Qed.

Lemma scanLines_no_segment (baseUrl : jsstring) (lines : list jsstring) :
  forall st, Forall (fun l => isSegmentLine l = false) lines ->
             st_segments (scanLines baseUrl st lines) = st_segments st.
Proof.
  induction lines as [|l lines IH]; intros st H; [reflexivity|].
  inversion H as [|? ? Hl Hrest]; subst.
  change (scanLines baseUrl st (l :: lines))
    with (scanLines baseUrl (scanLine baseUrl st l) lines).
  rewrite IH by assumption. now apply scanLine_not_segment.
Qed.

Lemma scanLines_app (baseUrl : jsstring) (st : ScanState) (l1 l2 : list jsstring) :
  scanLines baseUrl st (l1 ++ l2) = scanLines baseUrl (scanLines baseUrl st l1) l2.
Proof. apply fold_left_app. Qed.

(** C2, counterexample.  The line after the directive is not a comment
    and not a segment; the parsed duration is still pending after it
    and goes to the segment that follows. *)
Lemma duration_survives_plain_line_counterexample :
  startsWith (js "notes.txt") [ch_hash] = false
  /\ st_duration (scanLines (js "https://h/a/") initialScan
                    [js "#EXTINF:4.0,"; js "notes.txt"]) = num 4000
  /\ num 4000 <> DEFAULT_DURATION
  /\ segments (parseStreamPlaylist (js "https://h/a/p.m3u8")
                 [js "#EXTINF:4.0,"; js "notes.txt"; js "seg0.ts"])
     = [{| url := js "https://h/a/seg0.ts"; durationMs := num 4000 |}].
Proof. repeat split; try reflexivity. vm_compute. discriminate. Qed.

(** The last duration directive before a segment, with only lines that
    are neither segments nor duration directives after it. *)
Lemma scanLines_directive_then_segments
    (baseUrl : jsstring) (st : ScanState)
    (directive : jsstring) (between1 : list jsstring) (segment1 : jsstring)
    (between2 : list jsstring) (segment2 : jsstring) :
  startsWith directive (js "#EXTINF:") = true ->
  Forall otherLine between1 -> isSegmentLine segment1 = true ->
  Forall otherLine between2 -> isSegmentLine segment2 = true ->
  let st' := scanLines baseUrl st
               (directive :: between1 ++ segment1 :: between2 ++ [segment2]) in
  st_segments st' = st_segments st ++
    [{| url := resolveUrl baseUrl segment1; durationMs := extinfDuration directive |};
     {| url := resolveUrl baseUrl segment2; durationMs := DEFAULT_DURATION |}]
  /\ st_duration st' = DEFAULT_DURATION.
Proof.
  intros Hd Hb1 Hs1 Hb2 Hs2 st'. subst st'.
  change (directive :: between1 ++ segment1 :: between2 ++ [segment2])
    with ([directive] ++ between1 ++ [segment1] ++ between2 ++ [segment2]).
  rewrite !scanLines_app.
  set (st1 := scanLines baseUrl st [directive]).
  assert (H1 : st_segments st1 = st_segments st
               /\ st_duration st1 = extinfDuration directive).
  { subst st1. simpl. now rewrite scanLine_extinf. }
  set (st2 := scanLines baseUrl st1 between1).
  destruct (scanLines_other baseUrl between1 st1 Hb1) as [H2s H2d]. fold st2 in H2s, H2d.
  set (st3 := scanLines baseUrl st2 [segment1]).
  assert (H3 : st_segments st3 = st_segments st2 ++
                 [{| url := resolveUrl baseUrl segment1; durationMs := st_duration st2 |}]
               /\ st_duration st3 = DEFAULT_DURATION).
  { subst st3. simpl. now rewrite scanLine_segment. }
  set (st4 := scanLines baseUrl st3 between2).
  destruct (scanLines_other baseUrl between2 st3 Hb2) as [H4s H4d]. fold st4 in H4s, H4d.
  simpl. rewrite scanLine_segment by assumption. simpl.
  destruct H1 as [H1s H1d]. destruct H3 as [H3s H3d].
  rewrite H4s, H4d, H3s, H3d, H2s, H2d, H1s, H1d, <- app_assoc.
  split; reflexivity.
Qed.

(** C2, as amended.  The value of a duration directive stays pending
    until the next segment line or the next duration directive,
    whichever comes first.  A later directive replaces the pending
    value, whatever it was: of the directives that precede a segment
    line, [earlier] and then [directive], only the last one counts.
    The lines in between that are neither segments nor duration
    directives leave the pending value as it is.  The segment line
    takes the pending value and resets it to 6000 ms: the following
    segment, reached without a directive of its own, carries 6000 ms. *)
Theorem directive_duration_applies_to_next_segment
    (baseUrl : jsstring) (st : ScanState) (earlier : list jsstring)
    (directive : jsstring) (between1 : list jsstring) (segment1 : jsstring)
    (between2 : list jsstring) (segment2 : jsstring) :
  Forall (fun l => isSegmentLine l = false) earlier ->
  startsWith directive (js "#EXTINF:") = true ->
  Forall otherLine between1 -> isSegmentLine segment1 = true ->
  Forall otherLine between2 -> isSegmentLine segment2 = true ->
  let st' := scanLines baseUrl st
               (earlier ++ directive :: between1 ++ segment1
                        :: between2 ++ [segment2]) in
  st_segments st' = st_segments st ++
    [{| url := resolveUrl baseUrl segment1; durationMs := extinfDuration directive |};
     {| url := resolveUrl baseUrl segment2; durationMs := DEFAULT_DURATION |}]
  /\ st_duration st' = DEFAULT_DURATION
  /\ (forall pending,
        st_duration (scanLine baseUrl pending directive) = extinfDuration directive)
  /\ (forall pending line,
        In line (between1 ++ between2) ->
        st_duration (scanLine baseUrl pending line) = st_duration pending).
Proof.
  intros He Hd Hb1 Hs1 Hb2 Hs2 st'. subst st'.
  rewrite scanLines_app.
  destruct (scanLines_directive_then_segments baseUrl
              (scanLines baseUrl st earlier) directive between1 segment1
              between2 segment2 Hd Hb1 Hs1 Hb2 Hs2) as [Hseg Hdur].
  rewrite (scanLines_no_segment baseUrl earlier st He) in Hseg.
  split; [exact Hseg|]. split; [exact Hdur|]. split.
  - intros pending. now rewrite scanLine_extinf.
  - intros pending line Hin.
    assert (Hother : otherLine line).
    { apply in_app_or in Hin as [Hin|Hin];
        [rewrite Forall_forall in Hb1; now apply Hb1
        |rewrite Forall_forall in Hb2; now apply Hb2]. }
    destruct Hother as [Hs Hx].
    exact (proj2 (scanLine_other baseUrl pending line Hs Hx)).
Qed.

Lemma directive_duration_applies_to_next_segment_witness :
  map durationMs
    (st_segments (scanLines (js "https://h/a/") initialScan
       [js "#EXTINF:4.0,"; js "notes.txt"; js "#EXTINF:5.0,";
        js "#EXT-X-DISCONTINUITY"; js "seg0.ts"; js "seg1.ts"]))
  = [num 5000; num 6000]
  /\ map durationMs
       (st_segments (scanLines (js "https://h/a/") initialScan
          [js "#EXTINF:4.0,"; js "seg0.ts"; js "seg1.ts"]))
     = [num 4000; num 6000].
Proof.
  split.
  - pose proof (directive_duration_applies_to_next_segment
      (js "https://h/a/") initialScan
      [js "#EXTINF:4.0,"; js "notes.txt"]
      (js "#EXTINF:5.0,") [js "#EXT-X-DISCONTINUITY"] (js "seg0.ts") [] (js "seg1.ts")
      (Forall_cons _ (eq_refl : isSegmentLine (js "#EXTINF:4.0,") = false)
         (Forall_cons _ (eq_refl : isSegmentLine (js "notes.txt") = false)
            (Forall_nil _)))
      eq_refl
      (Forall_cons (js "#EXT-X-DISCONTINUITY")
         (conj eq_refl eq_refl : otherLine (js "#EXT-X-DISCONTINUITY"))
         (Forall_nil _))
      eq_refl
      (Forall_nil _) eq_refl) as [H _].
    exact (f_equal (map durationMs) H).
  - pose proof (directive_duration_applies_to_next_segment
      (js "https://h/a/") initialScan []
      (js "#EXTINF:4.0,") [] (js "seg0.ts") [] (js "seg1.ts")
      (Forall_nil _) eq_refl (Forall_nil _) eq_refl (Forall_nil _) eq_refl) as [H _].
    exact (f_equal (map durationMs) H).
Defined.

(** ** Durations of the segments *)

Lemma binary_round_aux_sign (s : bool) (m e : Z) (l : location) :
  isNegative (binary_round_aux prec emax s m e l) = true -> s = true.
Proof.
  unfold binary_round_aux.
  destruct (shr_fexp prec emax m e l) as [mrs1 e1].
  destruct (shr_fexp prec emax _ e1 loc_Exact) as [mrs2 e2].
  destruct (shr_m mrs2); simpl; try congruence.
  destruct (e2 <=? 971); simpl; congruence.
Qed.

Lemma decimal_to_number_sign (s : bool) (m e : Z) :
  isNegative (decimal_to_number s m e) = true -> s = true.
Proof.
  unfold decimal_to_number. destruct m as [|p|p]; simpl; try congruence.
  destruct (0 <=? e).
  - unfold binary_round. destruct (shl_align _ _ _) as [mz ez].
    apply binary_round_aux_sign.
  - destruct (SFdiv_core_binary prec emax (Zpos p) 0 (10 ^ (- e)) 0) as [[q e'] l].
    apply binary_round_aux_sign.
Qed.

(** [parseFloat] returns a negative number only for a text that has a
    minus sign after its leading white space. *)
Lemma parseFloat_sign (s : jsstring) :
  isNegative (parseFloat s) = true -> exists r, trimStart s = 45%N :: r.
Proof.
  unfold parseFloat.
  assert (Hsign : fst (takeSign (trimStart s)) = true ->
                  exists r, trimStart s = 45%N :: r).
  { destruct (trimStart s) as [|c r]; simpl; [discriminate|].
    destruct (c =? 45)%N eqn:E.
    - apply N.eqb_eq in E; subst c. intros _. now exists r.
    - destruct (c =? 43)%N; discriminate. }
  destruct (takeSign (trimStart s)) as [neg r]. simpl in Hsign.
  destruct (startsWith r (js "Infinity")).
  - simpl. exact Hsign.
  - destruct (takeDigits r) as [ip r1].
    destruct (match r1 with
              | [] => ([], r1)
              | c :: r1' => if (c =? ch_dot)%N then takeDigits r1' else ([], r1)
              end) as [fp r2].
    destruct (ip ++ fp); [discriminate|].
    intros H. apply decimal_to_number_sign in H. auto.
Qed.

Lemma num_mul_1000_sign (x : number) :
  isNegative (num_mul x (num 1000)) = true -> isNegative x = true.
Proof.
  change (num 1000) with (S754_finite false 8796093022208000 (-43)).
  unfold num_mul.
  destruct x as [s|s| |s m e]; cbn [SFmul isNegative];
    rewrite ?xorb_false_r; try congruence.
  apply binary_round_aux_sign.
Qed.

Lemma Math_round_sign (x : number) :
  isNegative (Math_round x) = true -> isNegative x = true.
Proof.
  destruct x as [s|s| |s m e]; simpl; try congruence.
  destruct (0 <=? e); [simpl; congruence|].
  unfold int_to_number. destruct (if s then _ else _) as [|p|p]; simpl; try congruence.
  destruct (shl_align _ _ _); simpl; congruence.
Qed.

(** A negative duration comes from a directive whose value starts
    with a minus sign. *)
Lemma extinfDuration_sign (line : jsstring) :
  isNegative (extinfDuration line) = true ->
  exists r, trimStart (durationStr line) = 45%N :: r.
Proof.
  unfold extinfDuration, num_or.
  destruct (num_truthy _); [|discriminate].
  intros H. now apply parseFloat_sign, num_mul_1000_sign, Math_round_sign.
Qed.

Lemma fromDirective_whole (lines : list jsstring) (x : number) :
  fromDirective lines x -> wholeDuration x.
Proof.
  intros [-> | (line & _ & _ & ->)];
    [apply DEFAULT_DURATION_whole | apply extinfDuration_whole].
Qed.

Lemma scanLine_whole (lines : list jsstring) (baseUrl : jsstring)
    (st : ScanState) (line : jsstring) :
  In line lines -> wholeState lines st -> wholeState lines (scanLine baseUrl st line).
Proof.
  intros Hin [Hd Hs]. destruct line as [|c l]; [now split|].
  unfold scanLine.
  set (dur1 := if startsWith (c :: l) (js "#EXTINF:")
               then extinfDuration (c :: l) else st_duration st).
  assert (Hdur : wholeDuration dur1 /\ fromDirective lines dur1).
  { subst dur1. destruct (startsWith (c :: l) (js "#EXTINF:")) eqn:E; [|exact Hd].
    split; [apply extinfDuration_whole|]. right. now exists (c :: l). }
  assert (Hdef : wholeDuration DEFAULT_DURATION /\ fromDirective lines DEFAULT_DURATION)
    by (split; [apply DEFAULT_DURATION_whole | now left]).
  destruct (negb (startsWith (c :: l) [ch_hash]) && isSegmentName (c :: l)).
  - split; simpl; [exact Hdef|].
    apply Forall_app; split; [exact Hs|]. now constructor.
  - now split.
Qed.

Lemma scanLines_whole (lines : list jsstring) (baseUrl : jsstring)
    (rest : list jsstring) :
  forall st, incl rest lines -> wholeState lines st ->
             wholeState lines (scanLines baseUrl st rest).
Proof.
  induction rest as [|l rest IH]; intros st Hincl H; [exact H|].
  simpl. apply IH.
  - intros x Hx. apply Hincl. now right.
  - apply scanLine_whole; [apply Hincl; now left | exact H].
Qed.

(** C9, counterexample.  The sign of the directive is kept: a duration
    of -5 seconds gives a segment of -5000 ms; and a value beyond the
    range of the doubles gives an infinite duration, which is not an
    integer. *)
Lemma negative_duration_counterexample :
  segments (parseStreamPlaylist (js "https://h/a/p.m3u8")
              [js "#EXTINF:-5,"; js "seg0.ts"; js "#EXTINF:1e999,"; js "seg1.ts"])
  = [{| url := js "https://h/a/seg0.ts"; durationMs := num (-5000) |};
     {| url := js "https://h/a/seg1.ts"; durationMs := S754_infinity false |}]
  /\ isNegative (num (-5000)) = true
  /\ isInteger (S754_infinity false) = false.
Proof. repeat split; reflexivity. Qed.

(** C9, as amended.  Every segment produced by the scan has a
    [durationMs] that is neither [NaN] nor zero, and that is an integer
    or an infinity, whatever the lines contain.  It is negative only
    when it was read from a duration directive of the playlist whose
    value starts with a minus sign. *)
Theorem segment_duration_whole
    (playlistUrl : jsstring) (lines : list jsstring) (s : SegmentInfo) :
  In s (segments (parseStreamPlaylist playlistUrl lines)) ->
  wholeDuration (durationMs s)
  /\ (isNegative (durationMs s) = true ->
      exists line r,
        In line lines /\ startsWith line (js "#EXTINF:") = true
        /\ durationMs s = extinfDuration line
        /\ trimStart (durationStr line) = 45%N :: r).
Proof.
  intros H. simpl in H.
  assert (Hw : wholeState lines (scanLines (getBaseUrl playlistUrl) initialScan lines)).
  { apply scanLines_whole; [apply incl_refl|].
    split; [split; [apply DEFAULT_DURATION_whole | now left] | constructor]. }
  destruct Hw as [_ Hs]. rewrite Forall_forall in Hs.
  destruct (Hs s H) as [Hwhole Hfrom]. split; [exact Hwhole|].
  intros Hneg. destruct Hfrom as [E | (line & Hin & Hd & E)].
  - rewrite E in Hneg. discriminate.
  - rewrite E in Hneg. destruct (extinfDuration_sign line Hneg) as [r Hr].
    now exists line, r.
Qed.

Lemma segment_duration_whole_witness :
  wholeDuration (num 2500) /\ wholeDuration (num (-5000)).
Proof.
  split.
  - apply (segment_duration_whole (js "https://h/a/p.m3u8")
             [js "#EXTINF:2.5,"; js "seg0.ts"]
             {| url := js "https://h/a/seg0.ts"; durationMs := num 2500 |}).
    left. reflexivity.
  - apply (segment_duration_whole (js "https://h/a/p.m3u8")
             [js "#EXTINF:-5,"; js "seg0.ts"]
             {| url := js "https://h/a/seg0.ts"; durationMs := num (-5000) |}).
    left. reflexivity.
Defined.

(** ** The path decryptor *)

Lemma indexOf_zero (s pat : jsstring) : indexOf s pat 0 = indexOf_from s pat 0.
Proof.
  unfold indexOf, clampIndex.
  replace (Z.to_nat (Z.min (Z.max 0 0) (jslength s))) with 0%nat
    by (unfold jslength; lia).
  reflexivity.
Qed.

(** When the scan finds the pattern, it finds its first occurrence. *)
Lemma indexOf_from_found (s pat : jsstring) :
  forall i, 0 <= i -> indexOf_from s pat i <> -1 ->
  exists before rest,
    s = before ++ rest
    /\ indexOf_from s pat i = i + jslength before
    /\ startsWith rest pat = true
    /\ forall k, (k < length before)%nat -> startsWith (skipn k s) pat = false.
Proof.
  induction s as [|c s IH]; intros i Hi H.
  - simpl in H. destruct (startsWith [] pat) eqn:E; [|contradiction].
    exists [], []. simpl. rewrite E. unfold jslength. simpl.
    repeat split; lia.
  - cbn [indexOf_from] in *. destruct (startsWith (c :: s) pat) eqn:E.
    + exists [], (c :: s). unfold jslength. simpl length.
      repeat split; solve [lia | assumption].
    + destruct (IH (i + 1) ltac:(lia) H) as (before & rest & E1 & E2 & E3 & E4).
      exists (c :: before), rest. subst s.
      repeat split; try assumption.
      * rewrite E2. unfold jslength. simpl length. lia.
      * intros [|k] Hk; [exact E|]. simpl. apply E4. simpl in Hk. lia.
Qed.

Lemma indexOf_from_occurs (s pat : jsstring) :
  forall i k, 0 <= i -> startsWith (skipn k s) pat = true ->
  indexOf_from s pat i <> -1.
Proof.
  induction s as [|c s IH]; intros i k Hi H.
  - rewrite skipn_nil in H. simpl. rewrite H. lia.
  - cbn [indexOf_from]. destruct (startsWith (c :: s) pat) eqn:E; [lia|].
    destruct k as [|k]; [simpl in H; congruence|].
    simpl in H. apply (IH (i + 1) k); [lia | exact H].
Qed.

(** What [decryptStreamPath] does, branch by branch. *)
Lemma decryptStreamPath_unfold (encryptedData : jsstring) (w : World) (tr : Trace) :
  decryptStreamPath encryptedData w tr =
  match parseInt10 (nth_error encryptedData 0) with
  | None => (Return [], tr ++ [EvWarn InvalidOffset])
  | Some offset =>
      let ciphertext :=
        base64_decode (substringFrom encryptedData (offset + 16) ++ js "==") in
      if (length ciphertext mod 16 =? 0)%nat then
        let rawText := cleanText (decipherUpdate ciphertext) in
        if includes rawText (js "/hls/") then
          (Return (HLS_BASE_URL ++ substringFrom rawText (indexOf rawText (js "hls/") 0)),
           tr)
        else (Return [], tr ++ [EvWarn NoHlsPathFound])
      else (Return [], tr ++ [EvWarn (FailedToDecrypt WrongFinalBlockLength)])
  end.
Proof.
  unfold decryptStreamPath, decryptStreamPath_try, tryCatch.
  destruct (parseInt10 (nth_error encryptedData 0)) as [offset|]; [|reflexivity].
  cbv zeta. unfold bind, liftOutcome, decipherFinal.
  destruct (length (base64_decode (substringFrom encryptedData (offset + 16) ++ js "=="))
              mod 16 =? 0)%nat; [|reflexivity].
  rewrite app_nil_r. unfold extractHlsPath.
  destruct (includes _ (js "/hls/")); reflexivity.
Qed.

(** A text that contains the five code units of [/hls/] contains the
    marker [hls/], and the path returned starts at its first occurrence. *)
Lemma marker_first_occurrence (rawText : jsstring) :
  includes rawText (js "/hls/") = true ->
  exists before path,
    rawText = before ++ path
    /\ startsWith path (js "hls/") = true
    /\ (forall k, (k < length before)%nat ->
          startsWith (skipn k rawText) (js "hls/") = false)
    /\ substringFrom rawText (indexOf rawText (js "hls/") 0) = path.
Proof.
  intros H. unfold includes in H. apply negb_true_iff, Z.eqb_neq in H.
  rewrite indexOf_zero in H.
  destruct (indexOf_from_found _ _ 0 ltac:(lia) H) as (b5 & r5 & E5 & _ & S5 & _).
  destruct (startsWith_inv _ _ S5) as [tail Htail].
  assert (Hocc : startsWith (skipn (length b5 + 1) rawText) (js "hls/") = true).
  { rewrite E5, Htail.
    replace (b5 ++ js "/hls/" ++ tail) with ((b5 ++ [ch_slash]) ++ js "hls/" ++ tail)
      by (now rewrite <- app_assoc).
    rewrite skipn_app, skipn_all2 by (rewrite length_app; simpl; lia).
    rewrite length_app. simpl length.
    replace (length b5 + 1 - (length b5 + 1))%nat with 0%nat by lia.
    reflexivity. }
  pose proof (indexOf_from_occurs rawText (js "hls/") 0 _ ltac:(lia) Hocc) as Hne.
  destruct (indexOf_from_found _ _ 0 ltac:(lia) Hne) as (before & path & E & Ei & Sp & First).
  exists before, path. repeat split; try assumption.
  rewrite indexOf_zero, Ei, Z.add_0_l, E. apply substringFrom_suffix.
Qed.

(** C3, counterexample.  The token decrypts to a text that starts with
    the four code units of the marker [hls/] but has no slash before
    them: the marker is present, and the operation still fails. *)
Lemma marker_without_leading_slash_counterexample :
  cleanText (decipherUpdate (base64_decode
    (js "u8naKQcMIhg0oKtSEHkPtLOoUJR1TT0Uldz8Uy4A80E==")))
  = js "hls/12/3456/track.m3u8"
  /\ includes (js "hls/12/3456/track.m3u8") (js "hls/") = true
  /\ run (decryptStreamPath
            (js "3abcdefghijklmnopqru8naKQcMIhg0oKtSEHkPtLOoUJR1TT0Uldz8Uy4A80E"))
         offline
     = (Return [], [EvWarn NoHlsPathFound]).
Proof. repeat split; vm_compute; reflexivity. Qed.

(** C3, as amended.  For a token with a digit in front and a payload of
    whole cipher blocks, let [rawText] be the decrypted bytes after
    cleanup.  If [rawText] lacks the five code units [/hls/], the
    operation warns that no path was found and returns the empty
    string.  Otherwise it returns the base URL followed by the part of
    [rawText] that starts at the first occurrence of the four code
    units [hls/]. *)
Theorem decryptStreamPath_marker
    (encryptedData : jsstring) (offset : Z) (w : World) (tr : Trace) :
  parseInt10 (nth_error encryptedData 0) = Some offset ->
  let ciphertext :=
    base64_decode (substringFrom encryptedData (offset + 16) ++ js "==") in
  (length ciphertext mod 16 = 0)%nat ->
  let rawText := cleanText (decipherUpdate ciphertext) in
  (includes rawText (js "/hls/") = false ->
   decryptStreamPath encryptedData w tr = (Return [], tr ++ [EvWarn NoHlsPathFound]))
  /\ (includes rawText (js "/hls/") = true ->
      exists before path,
        rawText = before ++ path
        /\ startsWith path (js "hls/") = true
        /\ (forall k, (k < length before)%nat ->
              startsWith (skipn k rawText) (js "hls/") = false)
        /\ decryptStreamPath encryptedData w tr = (Return (HLS_BASE_URL ++ path), tr)).
Proof.
  intros Hoff ciphertext Hlen rawText.
  rewrite decryptStreamPath_unfold, Hoff. fold ciphertext.
  apply Nat.eqb_eq in Hlen. cbv zeta. rewrite Hlen. fold rawText.
  split; intros H; rewrite H; [reflexivity|].
  destruct (marker_first_occurrence rawText H) as (before & path & E & S & F & Sub).
  exists before, path. rewrite Sub. auto.
Qed.

Lemma decryptStreamPath_marker_witness :
  exists path,
    startsWith path (js "hls/") = true
    /\ run (decryptStreamPath sampleToken) offline
       = (Return (HLS_BASE_URL ++ path), []).
Proof.
  destruct (decryptStreamPath_marker
    sampleToken 3 offline [] eq_refl eq_refl) as [_ H].
  destruct (H ltac:(vm_compute; reflexivity)) as (before & path & _ & S & _ & R).
  exists path. split; [exact S | exact R].
Defined.

(** C4.  When the payload of the token, decoded from Base64 after the
    two padding characters are appended, is not a whole number of
    16-byte blocks, the cipher fails; the failure is caught, a warning
    is logged and the empty string is returned: nothing is thrown and
    no decrypted text is returned. *)
Theorem decryptStreamPath_unaligned
    (encryptedData : jsstring) (offset : Z) (w : World) (tr : Trace) :
  parseInt10 (nth_error encryptedData 0) = Some offset ->
  (length (base64_decode (substringFrom encryptedData (offset + 16) ++ js "=="))
     mod 16 <> 0)%nat ->
  decryptStreamPath encryptedData w tr
  = (Return [], tr ++ [EvWarn (FailedToDecrypt WrongFinalBlockLength)]).
Proof.
  intros Hoff Hlen. rewrite decryptStreamPath_unfold, Hoff. cbv zeta.
  apply Nat.eqb_neq in Hlen. now rewrite Hlen.
Qed.

Lemma decryptStreamPath_unaligned_witness :
  base64_decode (js "QUJD==") = [65; 66; 67]%N
  /\ run (decryptStreamPath (js "3abcdefghijklmnopqrQUJD")) offline
     = (Return [], [EvWarn (FailedToDecrypt WrongFinalBlockLength)]).
Proof.
  split; [reflexivity|].
  apply (decryptStreamPath_unaligned (js "3abcdefghijklmnopqrQUJD") 3 offline []).
  - reflexivity.
  - vm_compute. discriminate.
Defined.

(** A token whose payload ends with U+0141: the code unit is read as the
    digit [A], which makes the payload seventeen bytes long; without it
    the sixteen bytes decrypt to a stream URL. *)
Example low_byte_digit_counts_in_payload :
  length (base64_decode
            (js "NDkhLbnxRMO4a5WChP/AmA" ++ [0x141%N] ++ js "==")) = 17%nat
  /\ run (decryptStreamPath
            (js "3abcdefghijklmnopqrNDkhLbnxRMO4a5WChP/AmA" ++ [0x141%N]))
         offline
     = (Return [], [EvWarn (FailedToDecrypt WrongFinalBlockLength)])
  /\ startsWith
       (match fst (run (decryptStreamPath
                          (js "3abcdefghijklmnopqrNDkhLbnxRMO4a5WChP/AmA"))
                       offline) with
        | Return u => u
        | Throw _ => []
        end)
       (HLS_BASE_URL ++ js "hls/") = true.
Proof. repeat split; vm_compute; reflexivity. Qed.

Lemma HLS_BASE_URL_prefix (path : jsstring) :
  startsWith (HLS_BASE_URL ++ path) HLS_BASE_URL = true.
Proof. apply startsWith_app. Qed.

(** C10.  For every input string [decryptStreamPath] returns: it never
    throws.  Either it logs one warning and returns the empty string,
    or it logs nothing and returns the base URL followed by a path; so
    every result that is not empty begins with the base URL. *)
Theorem decryptStreamPath_total (encryptedData : jsstring) (w : World) (tr : Trace) :
  exists result tr',
    decryptStreamPath encryptedData w tr = (Return result, tr')
    /\ ((exists msg, tr' = tr ++ [EvWarn msg] /\ result = [])
        \/ (tr' = tr /\ exists path, result = HLS_BASE_URL ++ path))
    /\ (result <> [] -> startsWith result HLS_BASE_URL = true).
Proof.
  rewrite decryptStreamPath_unfold.
  destruct (parseInt10 (nth_error encryptedData 0)) as [offset|].
  - cbv zeta.
    destruct (length _ mod 16 =? 0)%nat.
    + destruct (includes _ (js "/hls/")).
      * eexists _, _. split; [reflexivity|]. split.
        -- right. split; [reflexivity|]. eexists; reflexivity.
        -- intros _. apply HLS_BASE_URL_prefix.
      * eexists _, _. split; [reflexivity|]. split; [|congruence].
        left. eexists; split; reflexivity.
    + eexists _, _. split; [reflexivity|]. split; [|congruence].
      left. eexists; split; reflexivity.
  - eexists _, _. split; [reflexivity|]. split; [|congruence].
    left. eexists; split; reflexivity.
Qed.

Example decryptStreamPath_empty_input :
  run (decryptStreamPath []) offline = (Return [], [EvWarn InvalidOffset]).
Proof. reflexivity. Qed.

Example decryptStreamPath_short_input :
  run (decryptStreamPath (js "5")) offline = (Return [], [EvWarn NoHlsPathFound]).
Proof. reflexivity. Qed.

Example decryptStreamPath_sample :
  run (decryptStreamPath sampleToken) offline = (Return sampleHlsUrl, []).
Proof. vm_compute. reflexivity. Qed.

(** ** The manifest resolver *)

Lemma fetchPlaylist_unfold (target : jsstring) (w : World) (tr : Trace) :
  fetchPlaylist target w tr =
  match http_get w target with
  | None => (Throw FetchRejected, tr ++ [EvGet target])
  | Some res =>
      if negb (res_ok res)
      then (Throw (FailedToFetchPlaylist (res_status res)), tr ++ [EvGet target])
      else (Return (map trim (split ch_newline (res_text res))), tr ++ [EvGet target])
  end.
Proof.
  unfold fetchPlaylist, fetch, bind, emit.
  destruct (http_get w target) as [res|]; [|reflexivity].
  destruct (negb (res_ok res)); reflexivity.
Qed.

(** A fetched playlist always has at least one line. *)
Lemma fetchPlaylist_lines (target : jsstring) (w : World) (tr tr' : Trace)
    (lines : list jsstring) :
  fetchPlaylist target w tr = (Return lines, tr') -> lines <> [].
Proof.
  rewrite fetchPlaylist_unfold.
  destruct (http_get w target) as [res|]; [|discriminate].
  destruct (negb (res_ok res)); [discriminate|].
  intros H; inversion H; subst. intros E. apply map_eq_nil in E.
  now apply split_nonempty in E.
Qed.

Lemma fetchPlaylist_throws (target : jsstring) (w : World) (tr tr' : Trace)
    (e : Exception) :
  fetchPlaylist target w tr = (Throw e, tr') -> e <> EmptyHlsPlaylist.
Proof.
  rewrite fetchPlaylist_unfold.
  destruct (http_get w target) as [res|]; [|intros H; inversion H; discriminate].
  destruct (negb (res_ok res)); intros H; inversion H; discriminate.
Qed.

(** C5.  The body of a response, split at line feeds, is never an
    empty list of lines: an empty body is one empty line.  So the test
    of line 123 never holds and [parseHlsManifest] never throws the
    error for an empty playlist; on an empty body it returns a manifest
    without segments. *)
Theorem empty_playlist_never_rejected :
  (forall text, map trim (split ch_newline text) <> [])
  /\ (forall masterUrl w tr,
        fst (parseHlsManifest masterUrl w tr) <> Throw EmptyHlsPlaylist)
  /\ run (parseHlsManifest sampleHlsUrl) (worldOf None [])
     = (Return {| initSegmentUrl := None; segments := [];
                  totalDurationMs := num 0 |},
        [EvGet sampleHlsUrl]).
Proof.
  split; [|split].
  - intros text E. apply map_eq_nil in E. now apply split_nonempty in E.
  - intros masterUrl w tr. unfold parseHlsManifest, bind.
    destruct (fetchPlaylist masterUrl w tr) as [[lines|e] tr1] eqn:E.
    + apply fetchPlaylist_lines in E.
      destruct lines as [|l lines]; [contradiction|]. cbn [length Nat.eqb].
      destruct (option_map _ _) as [[|c u]|]; try (simpl; discriminate).
      destruct (fetchPlaylist (c :: u) w tr1) as [[lines2|e2] tr2] eqn:E2.
      * simpl; discriminate.
      * simpl. apply fetchPlaylist_throws in E2. congruence.
    + simpl. apply fetchPlaylist_throws in E. congruence.
  - reflexivity.
Qed.

(** ** The orchestrator *)

(** The only way for [fetchStreamUrl] to return a descriptor. *)
Lemma fetchStreamUrl_some (trackId : jsstring) (q : Quality) (w : World)
    (tr tr' : Trace) (m : MediaUrl.t) :
  fetchStreamUrl trackId q w tr = (Return (Some m), tr') ->
  exists reply hlsUrl manifest first rest tr1,
    post_stream_url w (lookupRequest trackId q) = Some reply
    /\ parseHlsManifest hlsUrl w tr1 = (Return manifest, tr')
    /\ segments manifest = first :: rest
    /\ m = descriptor q reply hlsUrl manifest first.
Proof.
  unfold fetchStreamUrl, tryCatch, fetchStreamUrl_try, postStreamUrl, bind, emit.
  destruct (post_stream_url w (lookupRequest trackId q)) as [reply|];
    [|discriminate].
  destruct (isSuccess reply && truthyString (replyStreamPath reply));
    [|discriminate].
  destruct (decryptStreamPath _ w _) as [[[|c hlsUrl]|e] tr1]; try discriminate.
  destruct (parseHlsManifest (c :: hlsUrl) w tr1) as [[manifest|e] tr2] eqn:E;
    try discriminate.
  destruct (segments manifest) as [|first rest] eqn:Es; [discriminate|].
  intros H. inversion H; subst.
  exists reply, (c :: hlsUrl), manifest, first, rest, tr1.
  repeat split; assumption.
Qed.

(** A returned descriptor never has an empty list of segments. *)
Lemma fetchStreamUrl_segments (trackId : jsstring) (q : Quality) (w : World)
    (tr tr' : Trace) (m : MediaUrl.t) :
  fetchStreamUrl trackId q w tr = (Return (Some m), tr') ->
  MediaUrl.segments m <> [].
Proof.
  intros H. apply fetchStreamUrl_some in H
    as (reply & hlsUrl & manifest & first & rest & tr1 & _ & _ & Es & ->).
  simpl. rewrite Es. discriminate.
Qed.

(** Without a segment line the scan appends nothing. *)
Lemma parseStreamPlaylist_no_segment (playlistUrl : jsstring) (lines : list jsstring) :
  Forall (fun l => isSegmentLine l = false) lines ->
  segments (parseStreamPlaylist playlistUrl lines) = [].
Proof.
  intros H. simpl.
  assert (G : forall st, st_segments (scanLines (getBaseUrl playlistUrl) st lines)
                         = st_segments st).
  { induction H as [|l ls Hl Hls IH]; intros st; [reflexivity|].
    change (scanLines (getBaseUrl playlistUrl) st (l :: ls))
      with (scanLines (getBaseUrl playlistUrl) (scanLine (getBaseUrl playlistUrl) st l) ls).
    rewrite IH. destruct l as [|c l]; [reflexivity|].
    unfold scanLine. unfold isSegmentLine in Hl. now rewrite Hl. }
  apply G.
Qed.

(** C1, counterexample.  The playlist has directives only.  The
    resolver does not fail: it returns a manifest whose list of
    segments is empty. *)
Lemma resolver_returns_empty_manifest_counterexample :
  run (parseHlsManifest sampleHlsUrl)
      (worldOf None (joinLines [js "#EXTM3U"; js "#EXT-X-VERSION:3"; js "#EXT-X-ENDLIST"]))
  = (Return {| initSegmentUrl := None; segments := []; totalDurationMs := num 0 |},
     [EvGet sampleHlsUrl]).
Proof. reflexivity. Qed.

(** C1, as amended.  When the resolver returns a manifest without
    segments, which it does as a success, it is the orchestrator that
    rejects it: [fetchStreamUrl] logs that no segments were found and
    returns [null]. *)
Theorem zero_segments_rejected_by_orchestrator
    (trackId : jsstring) (q : Quality) (w : World) (tr tr1 tr2 : Trace)
    (reply : ApiReply) (token hlsUrl : jsstring) (manifest : HlsManifest) :
  post_stream_url w (lookupRequest trackId q) = Some reply ->
  isSuccess reply = true ->
  replyStreamPath reply = Some token -> token <> [] ->
  decryptStreamPath token w ((tr ++ [EvPost (lookupRequest trackId q)])
                             ++ [EvDecrypt token]) = (Return hlsUrl, tr1) ->
  hlsUrl <> [] ->
  parseHlsManifest hlsUrl w tr1 = (Return manifest, tr2) ->
  segments manifest = [] ->
  fetchStreamUrl trackId q w tr = (Return None, tr2 ++ [EvWarn NoSegmentsFound]).
Proof.
  intros Hpost Hok Htok Hne Hdec Hurl Hparse Hseg.
  unfold fetchStreamUrl, tryCatch, fetchStreamUrl_try, postStreamUrl, bind, emit. rewrite Hpost, Hok, Htok.
  destruct token as [|c token]; [contradiction|].
  cbn [truthyString andb orEmpty]. rewrite Hdec. destruct hlsUrl as [|c' hlsUrl]; [contradiction|].
  rewrite Hparse, Hseg. reflexivity.
Qed.

Lemma zero_segments_rejected_by_orchestrator_witness :
  run (fetchStreamUrl (js "12345") high)
      (worldOf (Some (successReply sampleToken))
               (joinLines [js "#EXTM3U"; js "#EXT-X-ENDLIST"]))
  = (Return None,
     [EvPost (lookupRequest (js "12345") high); EvDecrypt sampleToken;
      EvGet sampleHlsUrl; EvWarn NoSegmentsFound]).
Proof.
  apply (zero_segments_rejected_by_orchestrator (js "12345") high
           (worldOf (Some (successReply sampleToken))
                    (joinLines [js "#EXTM3U"; js "#EXT-X-ENDLIST"]))
           []
           [EvPost (lookupRequest (js "12345") high); EvDecrypt sampleToken]
           [EvPost (lookupRequest (js "12345") high); EvDecrypt sampleToken;
            EvGet sampleHlsUrl]
           (successReply sampleToken) sampleToken sampleHlsUrl
           {| initSegmentUrl := None; segments := []; totalDurationMs := num 0 |}).
  - reflexivity.
  - reflexivity.
  - reflexivity.
  - discriminate.
  - vm_compute. reflexivity.
  - discriminate.
  - reflexivity.
  - reflexivity.
Defined.

(** [includes] is occurrence as a substring. *)
Lemma includes_occurs (s pat : jsstring) :
  includes s pat = true <-> exists a b, s = a ++ pat ++ b.
Proof.
  unfold includes. rewrite negb_true_iff, Z.eqb_neq, indexOf_zero. split.
  - intros H.
    destruct (indexOf_from_found _ _ 0 ltac:(lia) H) as (a & rest & E & _ & S & _).
    destruct (startsWith_inv _ _ S) as [b ->]. now exists a, b.
  - intros (a & b & ->).
    apply (indexOf_from_occurs _ _ 0 (length a)); [lia|].
    rewrite skipn_app, skipn_all, Nat.sub_diag. simpl. apply startsWith_app.
Qed.

(** C7, counterexample.  The first segment lies in a directory whose
    name contains [.mp4]: its URL ends with [.ts], and the format
    is reported as [mp4]. *)
Lemma format_not_by_suffix_counterexample :
  exists m tr,
    run (fetchStreamUrl (js "12345") high)
        (worldOf (Some (successReply sampleToken))
                 (joinLines [js "#EXTM3U"; js "#EXTINF:4.0,"; js "track.mp4/seg0.ts"]))
    = (Return (Some m), tr)
    /\ MediaUrl.url m
       = js "https://vodhlsgaana-ebw.akamaized.net/hls/12/3456/track.mp4/seg0.ts"
    /\ endsWith (MediaUrl.url m) (js ".ts") = true
    /\ MediaUrl.format m = js "mp4".
Proof.
  exists (descriptor high (successReply sampleToken) sampleHlsUrl
            (parseStreamPlaylist sampleHlsUrl
               [js "#EXTM3U"; js "#EXTINF:4.0,"; js "track.mp4/seg0.ts"])
            {| url := js "https://vodhlsgaana-ebw.akamaized.net/hls/12/3456/track.mp4/seg0.ts";
               durationMs := num 4000 |}),
         [EvPost (lookupRequest (js "12345") high); EvDecrypt sampleToken;
          EvGet sampleHlsUrl].
  repeat split; vm_compute; reflexivity.
Qed.

(** C7, as amended.  The format of a returned descriptor is decided by
    what the URL of the first segment contains, anywhere in it and in
    this order of priority: [m4s] if it contains [.m4s], else [mp4] if
    it contains [.mp4], else [ts] if it contains [.ts], else [aac] if
    it contains [.aac], and [m4a] if it contains none of them. *)
Theorem format_by_containment
    (trackId : jsstring) (q : Quality) (w : World) (tr tr' : Trace) (m : MediaUrl.t) :
  fetchStreamUrl trackId q w tr = (Return (Some m), tr') ->
  exists first rest,
    MediaUrl.segments m = first :: rest
    /\ MediaUrl.url m = url first
    /\ MediaUrl.format m =
       (if includes (url first) (js ".m4s") then js "m4s"
        else if includes (url first) (js ".mp4") then js "mp4"
        else if includes (url first) (js ".ts") then js "ts"
        else if includes (url first) (js ".aac") then js "aac"
        else js "m4a").
Proof.
  intros H. apply fetchStreamUrl_some in H
    as (reply & hlsUrl & manifest & first & rest & tr1 & _ & _ & Es & ->).
  exists first, rest. simpl. rewrite Es. repeat split.
Qed.

Lemma format_by_containment_witness :
  exists first rest,
    parseStreamPlaylist sampleHlsUrl [js "#EXTM3U"; js "#EXTINF:4.0,"; js "seg0.aac"]
    = {| initSegmentUrl := None; segments := first :: rest;
         totalDurationMs := num 4000 |}
    /\ detectFormat (url first) = js "aac".
Proof.
  destruct (format_by_containment (js "12345") high
    (worldOf (Some (successReply sampleToken))
             (joinLines [js "#EXTM3U"; js "#EXTINF:4.0,"; js "seg0.aac"]))
    []
    [EvPost (lookupRequest (js "12345") high); EvDecrypt sampleToken;
     EvGet sampleHlsUrl]
    (descriptor high (successReply sampleToken) sampleHlsUrl
       (parseStreamPlaylist sampleHlsUrl [js "#EXTM3U"; js "#EXTINF:4.0,"; js "seg0.aac"])
       {| url := js "https://vodhlsgaana-ebw.akamaized.net/hls/12/3456/seg0.aac";
          durationMs := num 4000 |})
    ltac:(vm_compute; reflexivity)) as (first & rest & Hs & Hu & Hf).
  exists first, rest. split.
  - exact (f_equal (fun l => {| initSegmentUrl := None; segments := l;
                               totalDurationMs := num 4000 |}) Hs).
  - exact (f_equal detectFormat (eq_sym Hu)).
Defined.

(** C8.  When the lookup answers with a status other than [success],
    or without a stream path (absent or empty), [fetchStreamUrl]
    returns [null]; the only event of the call is the lookup itself:
    [decryptStreamPath] is not called and no playlist is fetched. *)
Theorem lookup_failure_returns_null
    (trackId : jsstring) (q : Quality) (w : World) (tr : Trace) (reply : ApiReply) :
  post_stream_url w (lookupRequest trackId q) = Some reply ->
  api_status reply <> Some (js "success")
  \/ replyStreamPath reply = None \/ replyStreamPath reply = Some [] ->
  fetchStreamUrl trackId q w tr
  = (Return None, tr ++ [EvPost (lookupRequest trackId q)]).
Proof.
  intros Hpost H.
  assert (Hcond : isSuccess reply && truthyString (replyStreamPath reply) = false).
  { destruct H as [H|[H|H]].
    - apply andb_false_intro1. unfold isSuccess.
      destruct (api_status reply) as [status|]; [|reflexivity].
      destruct (strEq status (js "success")) eqn:E; [|reflexivity].
      apply strEq_eq in E. congruence.
    - apply andb_false_intro2. now rewrite H.
    - apply andb_false_intro2. now rewrite H. }
  unfold fetchStreamUrl, tryCatch, fetchStreamUrl_try, postStreamUrl, bind, emit. now rewrite Hpost, Hcond.
Qed.

Lemma lookup_failure_returns_null_witness :
  run (fetchStreamUrl (js "12345") medium)
      (worldOf (Some {| api_status := Some (js "failure"); data := None |}) [])
  = (Return None, [EvPost (lookupRequest (js "12345") medium)]).
Proof.
  apply (lookup_failure_returns_null (js "12345") medium
           (worldOf (Some {| api_status := Some (js "failure"); data := None |}) [])
           [] {| api_status := Some (js "failure"); data := None |}).
  - reflexivity.
  - left. vm_compute. discriminate.
Defined.

(** * Further properties *)

(** ** What the scan keeps and what it ignores *)

Lemma scanLine_irrelevant (baseUrl : jsstring) (st : ScanState) (line : jsstring) :
  relevantLine line = false -> scanLine baseUrl st line = st.
Proof.
  unfold relevantLine. intros H.
  apply orb_false_iff in H as [H Hd]. apply orb_false_iff in H as [Hs Hm].
  destruct line as [|c l]; [reflexivity|].
  unfold scanLine. rewrite Hm, Hd. unfold isSegmentLine in Hs. rewrite Hs.
  now destruct st.
Qed.

Lemma scanLines_segment_urls (baseUrl : jsstring) (lines : list jsstring) :
  forall st,
    map url (st_segments (scanLines baseUrl st lines))
    = map url (st_segments st) ++ map (resolveUrl baseUrl) (filter isSegmentLine lines).
Proof.
  induction lines as [|l lines IH]; intros st.
  - simpl. now rewrite app_nil_r.
  - change (scanLines baseUrl st (l :: lines))
      with (scanLines baseUrl (scanLine baseUrl st l) lines).
    rewrite IH. cbn [filter]. destruct (isSegmentLine l) eqn:E.
    + rewrite scanLine_segment by assumption. cbn [st_segments].
      rewrite map_app, <- app_assoc. reflexivity.
    + now rewrite scanLine_not_segment.
Qed.

(** X1.  The segments of a manifest are the segment lines of the
    playlist, in their order, each resolved against the directory of
    the playlist URL: no segment line is dropped, none is added and
    none is reordered. *)
Theorem segments_follow_segment_lines
    (playlistUrl : jsstring) (lines : list jsstring) :
  map url (segments (parseStreamPlaylist playlistUrl lines))
  = map (resolveUrl (getBaseUrl playlistUrl)) (filter isSegmentLine lines).
Proof.
  cbn [parseStreamPlaylist segments]. now rewrite scanLines_segment_urls.
Qed.

Lemma scanLines_filter_relevant (baseUrl : jsstring) (lines : list jsstring) :
  forall st, scanLines baseUrl st lines
             = scanLines baseUrl st (filter relevantLine lines).
Proof.
  induction lines as [|l lines IH]; intros st; [reflexivity|].
  change (scanLines baseUrl st (l :: lines))
    with (scanLines baseUrl (scanLine baseUrl st l) lines).
  cbn [filter]. destruct (relevantLine l) eqn:E.
  - change (scanLines baseUrl st (l :: filter relevantLine lines))
      with (scanLines baseUrl (scanLine baseUrl st l) (filter relevantLine lines)).
    apply IH.
  - rewrite scanLine_irrelevant by assumption. apply IH.
Qed.

(** X2.  Empty lines, comments and directives other than the init
    segment and duration directives, and lines that are not media file
    names can be removed from a playlist without changing the manifest:
    the scan ignores them wherever they stand. *)
Theorem unknown_lines_are_ignored (playlistUrl : jsstring) (lines : list jsstring) :
  parseStreamPlaylist playlistUrl lines
  = parseStreamPlaylist playlistUrl (filter relevantLine lines).
Proof.
  unfold parseStreamPlaylist. cbv zeta.
  now rewrite <- scanLines_filter_relevant.
Qed.

Lemma scanLines_extends (baseUrl : jsstring) (lines : list jsstring) :
  forall st, exists more,
    st_segments (scanLines baseUrl st lines) = st_segments st ++ more.
Proof.
  induction lines as [|l lines IH]; intros st.
  - exists []. simpl. now rewrite app_nil_r.
  - change (scanLines baseUrl st (l :: lines))
      with (scanLines baseUrl (scanLine baseUrl st l) lines).
    destruct (IH (scanLine baseUrl st l)) as [more Hmore]. rewrite Hmore.
    destruct (isSegmentLine l) eqn:E.
    + rewrite scanLine_segment by assumption. cbn [st_segments].
      rewrite <- app_assoc. eexists; reflexivity.
    + rewrite scanLine_not_segment by assumption. now exists more.
Qed.

(** X3.  Lines appended to a playlist only append segments: the
    segments of the shorter playlist, with their durations, are a
    prefix of the segments of the longer one. *)
Theorem appended_lines_append_segments
    (playlistUrl : jsstring) (lines more : list jsstring) :
  exists added,
    segments (parseStreamPlaylist playlistUrl (lines ++ more))
    = segments (parseStreamPlaylist playlistUrl lines) ++ added.
Proof.
  cbn [parseStreamPlaylist segments]. rewrite scanLines_app.
  apply scanLines_extends.
Qed.

(** X4.  In a playlist without a duration directive every segment
    carries the default duration of 6000 ms. *)
Theorem no_directive_default_duration
    (playlistUrl : jsstring) (lines : list jsstring) (s : SegmentInfo) :
  Forall (fun l => startsWith l (js "#EXTINF:") = false) lines ->
  In s (segments (parseStreamPlaylist playlistUrl lines)) ->
  durationMs s = DEFAULT_DURATION.
Proof.
  intros Hno Hin. cbn [parseStreamPlaylist segments] in Hin.
  assert (Hw : wholeState lines (scanLines (getBaseUrl playlistUrl) initialScan lines)).
  { apply scanLines_whole; [apply incl_refl|].
    split; [split; [apply DEFAULT_DURATION_whole | now left] | constructor]. }
  destruct Hw as [_ Hs]. rewrite Forall_forall in Hs.
  destruct (Hs s Hin) as [_ [E | (line & Hl & Hd & _)]]; [exact E|].
  rewrite Forall_forall in Hno. rewrite (Hno line Hl) in Hd. discriminate.
Qed.

Lemma no_directive_default_duration_witness :
  durationMs {| url := js "https://h/a/seg1.aac"; durationMs := num 6000 |}
  = DEFAULT_DURATION.
Proof.
  apply (no_directive_default_duration (js "https://h/a/p.m3u8")
           [js "#EXTM3U"; js "seg0.aac"; js ""; js "seg1.aac"]).
  - repeat constructor.
  - right. left. reflexivity.
Defined.

(** ** The init segment *)

Lemma scanLine_init_other (baseUrl : jsstring) (st : ScanState) (line : jsstring) :
  startsWith line (js "#EXT-X-MAP:") = false ->
  st_init (scanLine baseUrl st line) = st_init st.
Proof.
  intros H. destruct line as [|c l]; [reflexivity|].
  unfold scanLine. rewrite H.
  now destruct (negb (startsWith (c :: l) [ch_hash]) && isSegmentName (c :: l)).
Qed.

Lemma scanLines_init_other (baseUrl : jsstring) (lines : list jsstring) :
  forall st, Forall (fun l => startsWith l (js "#EXT-X-MAP:") = false) lines ->
             st_init (scanLines baseUrl st lines) = st_init st.
Proof.
  induction lines as [|l lines IH]; intros st H; [reflexivity|].
  inversion H as [|? ? Hl Hrest]; subst.
  change (scanLines baseUrl st (l :: lines))
    with (scanLines baseUrl (scanLine baseUrl st l) lines).
  rewrite IH by assumption. now apply scanLine_init_other.
Qed.

Lemma takeUntil_app (q : N) (t r : jsstring) :
  ~ In q t -> takeUntil q (t ++ q :: r) = (t, q :: r).
Proof.
  induction t as [|c t IH]; intros H.
  - simpl. now rewrite N.eqb_refl.
  - simpl. replace (c =? q)%N with false
      by (symmetry; apply N.eqb_neq; intros ->; apply H; now left).
    rewrite IH; [reflexivity|]. intros Hin; apply H; now right.
Qed.

Lemma uriPatternHere_head (c : N) (r : jsstring) :
  c <> 85%N -> uriPatternHere (c :: r) = None.
Proof.
  intros H. unfold uriPatternHere.
  change (js "URI=" ++ [ch_quote]) with (85%N :: js "RI=" ++ [ch_quote]).
  now rewrite startsWith_head.
Qed.

Lemma regexMatch_uri_skip (p s : jsstring) :
  ~ In 85%N p -> regexMatch uriPatternHere (p ++ s) = regexMatch uriPatternHere s.
Proof.
  induction p as [|c p IH]; intros H; [reflexivity|].
  change ((c :: p) ++ s) with (c :: (p ++ s)). cbn [regexMatch].
  rewrite uriPatternHere_head by (intros ->; apply H; now left).
  apply IH. intros Hin; apply H; now right.
Qed.

Lemma uriPatternHere_quoted (uri tail : jsstring) :
  uri <> [] -> ~ In ch_quote uri ->
  uriPatternHere (js "URI=" ++ [ch_quote] ++ uri ++ ch_quote :: tail) = Some uri.
Proof.
  intros Hne Hq. unfold uriPatternHere.
  replace (js "URI=" ++ [ch_quote] ++ uri ++ ch_quote :: tail)
    with ((js "URI=" ++ [ch_quote]) ++ uri ++ ch_quote :: tail)
    by (now rewrite <- app_assoc).
  rewrite startsWith_app.
  change (skipn 5 ((js "URI=" ++ [ch_quote]) ++ uri ++ ch_quote :: tail))
    with (uri ++ ch_quote :: tail).
  rewrite takeUntil_app by assumption.
  destruct uri; [contradiction | reflexivity].
Qed.

Lemma regexMatch_here {A} (here : jsstring -> option A) (s : jsstring) (x : A) :
  here s = Some x -> regexMatch here s = Some x.
Proof. intros H. destruct s; simpl; now rewrite H. Qed.

(** The init segment directive, with its URI attribute after
    attributes [attrs] that have no capital U. *)
Lemma scanLine_map (baseUrl : jsstring) (st : ScanState) (attrs uri tail : jsstring) :
  uri <> [] -> ~ In ch_quote uri -> ~ In 85%N attrs ->
  scanLine baseUrl st
    (js "#EXT-X-MAP:" ++ attrs ++ js "URI=" ++ [ch_quote] ++ uri ++ ch_quote :: tail)
  = {| st_init := Some (resolveUrl baseUrl uri);
       st_segments := st_segments st;
       st_duration := st_duration st |}.
Proof.
  intros Hne Hq Hu.
  set (rest := attrs ++ js "URI=" ++ [ch_quote] ++ uri ++ ch_quote :: tail).
  assert (Hm : regexMatch uriPatternHere (js "#EXT-X-MAP:" ++ rest) = Some uri).
  { subst rest. rewrite regexMatch_uri_skip by not_in_literal.
    rewrite regexMatch_uri_skip by assumption.
    apply regexMatch_here. now apply uriPatternHere_quoted. }
  change (js "#EXT-X-MAP:" ++ rest) with (ch_hash :: js "EXT-X-MAP:" ++ rest) in *.
  unfold scanLine. rewrite Hm.
  change (ch_hash :: js "EXT-X-MAP:" ++ rest) with (js "#EXT-X-MAP:" ++ rest).
  rewrite startsWith_app.
  replace (startsWith (js "#EXT-X-MAP:" ++ rest) (js "#EXTINF:")) with false
    by reflexivity.
  replace (startsWith (js "#EXT-X-MAP:" ++ rest) [ch_hash]) with true
    by reflexivity.
  reflexivity.
Qed.

(** X5.  The init segment of a manifest is the quoted URI of the last
    init segment directive of the playlist, resolved against the
    directory of the playlist URL; directives before it are overridden
    and the lines after it do not matter. *)
Theorem last_map_directive_wins
    (playlistUrl : jsstring) (before after : list jsstring)
    (attrs uri tail : jsstring) :
  uri <> [] -> ~ In ch_quote uri -> ~ In 85%N attrs ->
  Forall (fun l => startsWith l (js "#EXT-X-MAP:") = false) after ->
  initSegmentUrl
    (parseStreamPlaylist playlistUrl
       (before ++
        (js "#EXT-X-MAP:" ++ attrs ++ js "URI=" ++ [ch_quote] ++ uri ++ ch_quote :: tail)
        :: after))
  = Some (resolveUrl (getBaseUrl playlistUrl) uri).
Proof.
  intros Hne Hq Hu Hafter. cbn [parseStreamPlaylist initSegmentUrl].
  rewrite scanLines_app.
  set (st := scanLines (getBaseUrl playlistUrl) initialScan before).
  match goal with
  | |- st_init (scanLines ?b st (?l :: after)) = _ =>
      change (scanLines b st (l :: after))
        with (scanLines b (scanLine b st l) after)
  end.
  rewrite scanLines_init_other by assumption.
  now rewrite scanLine_map.
Qed.

Lemma last_map_directive_wins_witness :
  initSegmentUrl
    (parseStreamPlaylist (js "https://h/a/p.m3u8")
       [js "#EXT-X-MAP:URI=" ++ [ch_quote] ++ js "old.mp4" ++ [ch_quote];
        js "#EXT-X-MAP:URI=" ++ [ch_quote] ++ js "init.mp4" ++ [ch_quote];
        js "#EXTINF:4.0,"; js "seg0.m4s"])
  = Some (js "https://h/a/init.mp4").
Proof.
  apply (last_map_directive_wins (js "https://h/a/p.m3u8")
           [js "#EXT-X-MAP:URI=" ++ [ch_quote] ++ js "old.mp4" ++ [ch_quote]]
           [js "#EXTINF:4.0,"; js "seg0.m4s"]
           [] (js "init.mp4") []).
  - discriminate.
  - not_in_literal.
  - intros [].
  - repeat constructor.
Defined.

(** X6.  A playlist without an init segment directive gives a manifest
    without an init segment. *)
Theorem no_map_directive_no_init (playlistUrl : jsstring) (lines : list jsstring) :
  Forall (fun l => startsWith l (js "#EXT-X-MAP:") = false) lines ->
  initSegmentUrl (parseStreamPlaylist playlistUrl lines) = None.
Proof.
  intros H. cbn [parseStreamPlaylist initSegmentUrl].
  now rewrite scanLines_init_other.
Qed.

Lemma no_map_directive_no_init_witness :
  initSegmentUrl
    (parseStreamPlaylist (js "https://h/a/p.m3u8")
       [js "#EXTM3U"; js "#EXTINF:4.0,"; js "seg0.ts"]) = None.
Proof.
  apply no_map_directive_no_init. repeat constructor.
Defined.

(** ** The shape of resolved URLs *)

Lemma substring_from_zero (s : jsstring) (b : Z) :
  substring s 0 b = firstn (clampIndex s b) s.
Proof.
  unfold substring.
  replace (clampIndex s 0) with 0%nat by (unfold clampIndex, jslength; lia).
  now rewrite Nat.max_0_l, Nat.min_0_l, Nat.sub_0_r.
Qed.

Lemma resolveUrl_suffix (baseUrl path : jsstring) :
  exists k, resolveUrl baseUrl path = firstn k baseUrl ++ path.
Proof.
  unfold resolveUrl.
  destruct (startsWith path (js "http://") || startsWith path (js "https://")).
  - now exists 0%nat.
  - assert (Hall : exists k, baseUrl ++ path = firstn k baseUrl ++ path)
      by (exists (length baseUrl); now rewrite firstn_all).
    destruct (startsWith path [ch_slash]); [|exact Hall].
    cbv zeta. destruct (negb (indexOf baseUrl (js "://") 0 =? -1)); [|exact Hall].
    destruct (negb (indexOf baseUrl [ch_slash] (indexOf baseUrl (js "://") 0 + 3) =? -1));
      [|exact Hall].
    rewrite substring_from_zero. eexists; reflexivity.
Qed.

(** X7.  [resolveUrl] never alters the reference: the result is the
    reference itself preceded by a prefix of the base URL (empty for an
    absolute reference, the whole base for a relative one), so it is
    empty only when the reference is. *)
Theorem resolveUrl_keeps_reference (baseUrl path : jsstring) :
  (exists k, resolveUrl baseUrl path = firstn k baseUrl ++ path)
  /\ (path <> [] -> resolveUrl baseUrl path <> []).
Proof.
  destruct (resolveUrl_suffix baseUrl path) as [k Hk]. split; [now exists k|].
  intros Hne E. rewrite Hk in E. apply app_eq_nil in E as [_ E]. contradiction.
Qed.

Lemma regexTest_app (here : jsstring -> bool) (x s : jsstring) :
  regexTest here s = true -> regexTest here (x ++ s) = true.
Proof.
  intros H. induction x as [|c x IH]; [exact H|].
  simpl. rewrite IH. apply orb_true_r.
Qed.

Lemma regexTest_occurs (here : jsstring -> bool) (s : jsstring) :
  regexTest here s = true <-> exists p r, s = p ++ r /\ here r = true.
Proof.
  split.
  - induction s as [|c s IH]; simpl; intros H.
    + rewrite orb_false_r in H. now exists [], [].
    + apply orb_true_iff in H as [H|H].
      * now exists [], (c :: s).
      * destruct (IH H) as (p & r & -> & Hr). now exists (c :: p), r.
  - intros (p & r & -> & Hr). apply regexTest_app.
    destruct r; simpl; now rewrite Hr.
Qed.

Lemma parseStreamPlaylist_segment_line
    (playlistUrl : jsstring) (lines : list jsstring) (s : SegmentInfo) :
  In s (segments (parseStreamPlaylist playlistUrl lines)) ->
  isSegmentName (url s) = true
  /\ exists line k,
       In line lines /\ isSegmentLine line = true
       /\ url s = firstn k (getBaseUrl playlistUrl) ++ line.
Proof.
  intros H. apply (in_map url) in H.
  cbn [parseStreamPlaylist segments] in H.
  rewrite scanLines_segment_urls in H. cbn [initialScan st_segments map app] in H.
  apply in_map_iff in H as (line & Hurl & Hline).
  apply filter_In in Hline as [Hin Hseg].
  destruct (resolveUrl_suffix (getBaseUrl playlistUrl) line) as [k Hk].
  rewrite Hk in Hurl. split.
  - rewrite <- Hurl. apply regexTest_app.
    destruct line as [|c l]; [discriminate|].
    unfold isSegmentLine in Hseg. now apply andb_true_iff in Hseg as [_ Hseg].
  - now exists line, k.
Qed.

(** X8.  Every segment URL of a manifest ends with the playlist line
    it comes from, which is a segment line of the playlist, and
    therefore still has a media file name: the extension test of the
    scan holds of the resolved URL too. *)
Theorem segment_urls_keep_their_line
    (playlistUrl : jsstring) (lines : list jsstring) (s : SegmentInfo) :
  In s (segments (parseStreamPlaylist playlistUrl lines)) ->
  isSegmentName (url s) = true
  /\ exists line k,
       In line lines /\ isSegmentLine line = true
       /\ url s = firstn k (getBaseUrl playlistUrl) ++ line.
Proof.
  intros H. apply (in_map url) in H.
  cbn [parseStreamPlaylist segments] in H.
  rewrite scanLines_segment_urls in H. cbn [initialScan st_segments map app] in H.
  apply in_map_iff in H as (line & Hurl & Hline).
  apply filter_In in Hline as [Hin Hseg].
  destruct (resolveUrl_suffix (getBaseUrl playlistUrl) line) as [k Hk].
  rewrite Hk in Hurl. split.
  - rewrite <- Hurl. apply regexTest_app.
    destruct line as [|c l]; [discriminate|].
    unfold isSegmentLine in Hseg. now apply andb_true_iff in Hseg as [_ Hseg].
  - now exists line, k.
Qed.

Lemma segment_urls_keep_their_line_witness :
  isSegmentName (js "https://h/a/seg0.ts?token=1") = true.
Proof.
  apply (segment_urls_keep_their_line (js "https://h/a/p.m3u8?x=1")
           [js "#EXTINF:4.0,"; js "seg0.ts?token=1"]
           {| url := js "https://h/a/seg0.ts?token=1"; durationMs := num 4000 |}).
  left. reflexivity.
Defined.

(** ** The media file name pattern *)

Lemma startsWithCI_spec (s pat : jsstring) :
  startsWithCI s pat = true
  <-> exists written rest, s = written ++ rest
                           /\ map foldCase written = map foldCase pat.
Proof.
  revert s; induction pat as [|p pat IH]; intros s; split.
  - intros _. now exists [], s.
  - reflexivity.
  - destruct s as [|c s]; simpl; [discriminate|]. intros H.
    apply andb_true_iff in H as [Hc Hs]. apply N.eqb_eq in Hc.
    apply IH in Hs as (written & rest & -> & Hw).
    exists (c :: written), rest. simpl. now rewrite Hc, Hw.
  - intros (written & rest & -> & Hw).
    destruct written as [|c written]; [discriminate|].
    simpl in Hw. inversion Hw as [[Hc Hw']]. simpl.
    rewrite Hc, N.eqb_refl. simpl. apply IH. now exists written, rest.
Qed.

Lemma queryOrEnd_spec (s : jsstring) :
  queryOrEnd s = true <-> s = [] \/ exists q, s = ch_question :: q.
Proof.
  destruct s as [|c s]; simpl.
  - split; auto.
  - rewrite N.eqb_eq. split.
    + intros ->. right. now exists s.
    + intros [H|[q H]]; [discriminate | now inversion H].
Qed.

(** X9.  A line has a media file name exactly when it contains a dot
    followed by one of the extensions ts, m4s, mp4, m4a, aac, written
    in any mix of upper and lower case, and followed in turn by the end
    of the line or by a question mark. *)
Theorem isSegmentName_spec (line : jsstring) :
  isSegmentName line = true
  <-> exists before written after ext,
        line = before ++ ch_dot :: written ++ after
        /\ In ext segmentExtensions
        /\ map foldCase written = map foldCase ext
        /\ (after = [] \/ exists q, after = ch_question :: q).
Proof.
  unfold isSegmentName. rewrite regexTest_occurs. split.
  - intros (before & r & -> & Hr).
    destruct r as [|c r]; [discriminate|].
    cbv beta iota delta [segmentPatternHere] in Hr.
    apply andb_true_iff in Hr as [Hc Hex]. apply N.eqb_eq in Hc; subst c.
    apply existsb_exists in Hex as (ext & Hin & Hext).
    apply andb_true_iff in Hext as [Hci Hend].
    apply startsWithCI_spec in Hci as (written & after & -> & Hw).
    assert (Hlen : length written = length ext).
    { rewrite <- (length_map foldCase written), Hw. apply length_map. }
    rewrite <- Hlen, skipn_app, skipn_all, Nat.sub_diag in Hend. simpl in Hend.
    apply queryOrEnd_spec in Hend.
    now exists before, written, after, ext.
  - intros (before & written & after & ext & -> & Hin & Hw & Hend).
    exists before, (ch_dot :: written ++ after). split; [reflexivity|].
    cbv beta iota delta [segmentPatternHere]. rewrite N.eqb_refl. cbn [andb].
    apply existsb_exists. exists ext. split; [exact Hin|].
    apply andb_true_iff. split.
    + apply startsWithCI_spec. now exists written, after.
    + assert (Hlen : length written = length ext).
      { rewrite <- (length_map foldCase written), Hw. apply length_map. }
      rewrite <- Hlen, skipn_app, skipn_all, Nat.sub_diag. simpl.
      now apply queryOrEnd_spec.
Qed.

(** ** The directory of a URL *)

Lemma split_head_spec (sep : N) (s : jsstring) :
  ~ In sep (nth 0 (split sep s) [])
  /\ exists r, s = nth 0 (split sep s) [] ++ r.
Proof.
  induction s as [|c s [IH1 [r IH2]]].
  - simpl. split; [tauto | now exists []].
  - simpl. destruct (c =? sep)%N eqn:E.
    + simpl. split; [tauto | now exists (c :: s)].
    + apply N.eqb_neq in E. destruct (split sep s) as [|p ps]; simpl in *.
      * split; [intros [H|[]]; congruence | exists s; now rewrite IH2].
      * split; [intros [H|H]; [congruence | tauto]|].
        exists r. now rewrite IH2 at 1.
Qed.

Lemma last_occurrence (c : N) (q : jsstring) :
  ~ In c q \/ exists x f, q = x ++ c :: f /\ ~ In c f.
Proof.
  induction q as [|a q [IH | (x & f & -> & Hf)]].
  - left. tauto.
  - destruct (N.eq_dec a c) as [-> | Hac].
    + right. now exists [], q.
    + left. intros [H|H]; [congruence | tauto].
  - right. now exists (a :: x), f.
Qed.

Lemma getBaseUrl_cases (url : jsstring) :
  let q := nth 0 (split ch_question url) [] in
  (~ In ch_slash q /\ getBaseUrl url = q)
  \/ exists x f, q = x ++ ch_slash :: f /\ getBaseUrl url = x ++ [ch_slash].
Proof.
  intros q. unfold getBaseUrl. fold q.
  destruct (last_occurrence ch_slash q) as [Hno | (x & f & Hq & Hf)].
  - left. split; [exact Hno|].
    unfold lastIndexOf. now rewrite lastIndexOf_from_none.
  - right. exists x, f. split; [exact Hq|]. rewrite Hq.
    unfold lastIndexOf. rewrite lastIndexOf_from_last by assumption.
    replace (0 + jslength x =? -1) with false
      by (symmetry; apply Z.eqb_neq; unfold jslength; lia).
    cbn [negb].
    replace (x ++ ch_slash :: f) with ((x ++ [ch_slash]) ++ f)
      by (now rewrite <- app_assoc).
    replace (0 + jslength x + 1) with (jslength (x ++ [ch_slash]))
      by (unfold jslength; rewrite length_app; simpl; lia).
    apply substring_prefix.
Qed.

(** X10.  For every URL, [getBaseUrl] returns a prefix of the URL that
    has no question mark, and applying it twice gives the same result
    as applying it once. *)
Theorem getBaseUrl_prefix_idempotent (url : jsstring) :
  (exists rest, url = getBaseUrl url ++ rest)
  /\ ~ In ch_question (getBaseUrl url)
  /\ getBaseUrl (getBaseUrl url) = getBaseUrl url.
Proof.
  destruct (split_head_spec ch_question url) as [Hq [r Hr]].
  destruct (getBaseUrl_cases url) as [[Hno E] | (x & f & Hx & E)]; rewrite E.
  - split; [now exists r|]. split; [exact Hq|].
    unfold getBaseUrl. destruct (split_first ch_question _ Hq) as [_ H]. rewrite H.
    unfold lastIndexOf. now rewrite lastIndexOf_from_none.
  - rewrite Hx in Hq, Hr.
    assert (Hxq : ~ In ch_question x)
      by (intros H; apply Hq; apply in_or_app; now left).
    split; [|split].
    + exists (f ++ r). rewrite Hr at 1. now rewrite <- !app_assoc.
    + intros H. apply in_app_or in H as [H|[H|[]]]; [tauto | discriminate H].
    + pose proof (getBaseUrl_directory x [] [] Hxq) as H.
      rewrite !app_nil_r in H. apply H; auto.
Qed.

(** ** The lines of a fetched playlist *)

Lemma split_none (sep : N) (p : jsstring) : ~ In sep p -> split sep p = [p].
Proof.
  induction p as [|c p IH]; intros H; [reflexivity|].
  simpl. replace (c =? sep)%N with false
    by (symmetry; apply N.eqb_neq; intros ->; apply H; now left).
  rewrite IH; [reflexivity|]. intros Hin; apply H; now right.
Qed.

Lemma split_app_sep (sep : N) (p r : jsstring) :
  ~ In sep p -> split sep (p ++ sep :: r) = p :: split sep r.
Proof.
  induction p as [|c p IH]; intros H.
  - simpl. now rewrite N.eqb_refl.
  - simpl. replace (c =? sep)%N with false
      by (symmetry; apply N.eqb_neq; intros ->; apply H; now left).
    rewrite IH; [reflexivity|]. intros Hin; apply H; now right.
Qed.

(** White space at the end of a line does not survive [trim]. *)
Lemma trim_app_ws (l : jsstring) (c : N) :
  isWhiteSpace c = true -> trim (l ++ [c]) = trim l.
Proof.
  intros Hc. induction l as [|a l IH].
  - unfold trim. simpl. now rewrite Hc.
  - unfold trim in *. simpl. destruct (isWhiteSpace a) eqn:Ea; [exact IH|].
    unfold trimEnd. change (a :: l ++ [c]) with ((a :: l) ++ [c]).
    rewrite rev_unit. simpl trimStart at 1. now rewrite Hc.
Qed.

Lemma bodyLines_joinLines (lines : list jsstring) :
  lines <> [] -> Forall (fun l => ~ In ch_newline l) lines ->
  split ch_newline (joinLines lines) = lines.
Proof.
  induction lines as [|l [|l2 rest] IH]; intros Hne H; [contradiction| |].
  - inversion H; subst. simpl. now apply split_none.
  - inversion H as [|? ? Hl Hrest]; subst.
    change (joinLines (l :: l2 :: rest))
      with (l ++ ch_newline :: joinLines (l2 :: rest)).
    rewrite split_app_sep by assumption. f_equal. now apply IH.
Qed.

Lemma bodyLines_joinCRLF (lines : list jsstring) :
  lines <> [] -> Forall (fun l => ~ In ch_newline l) lines ->
  map trim (split ch_newline (joinCRLF lines)) = map trim lines.
Proof.
  induction lines as [|l [|l2 rest] IH]; intros Hne H; [contradiction| |].
  - inversion H; subst. simpl. now rewrite split_none.
  - inversion H as [|? ? Hl Hrest]; subst.
    change (joinCRLF (l :: l2 :: rest))
      with (l ++ 13%N :: ch_newline :: joinCRLF (l2 :: rest)).
    replace (l ++ 13%N :: ch_newline :: joinCRLF (l2 :: rest))
      with ((l ++ [13%N]) ++ ch_newline :: joinCRLF (l2 :: rest))
      by (now rewrite <- app_assoc).
    rewrite split_app_sep
      by (intros Hin; apply in_app_or in Hin as [Hin|[Hin|[]]];
          [tauto | discriminate Hin]).
    cbn [map]. rewrite trim_app_ws by reflexivity. f_equal. now apply IH.
Qed.

(** X11.  A playlist body made of lines separated by line feeds, or by
    carriage returns and line feeds, is fetched as the list of these
    lines, each trimmed: the two line endings give the same lines. *)
Theorem fetchPlaylist_line_endings
    (target : jsstring) (w : World) (tr : Trace) (res : Response)
    (lines : list jsstring) :
  http_get w target = Some res -> res_ok res = true ->
  lines <> [] -> Forall (fun l => ~ In ch_newline l) lines ->
  res_text res = joinLines lines \/ res_text res = joinCRLF lines ->
  fetchPlaylist target w tr = (Return (map trim lines), tr ++ [EvGet target]).
Proof.
  intros Hget Hok Hne Hnl Htext.
  rewrite fetchPlaylist_unfold, Hget, Hok. cbn [negb].
  destruct Htext as [-> | ->].
  - now rewrite bodyLines_joinLines.
  - now rewrite bodyLines_joinCRLF.
Qed.

Lemma fetchPlaylist_line_endings_witness :
  run (fetchPlaylist (js "https://h/a/p.m3u8"))
      (worldOf None (joinCRLF [js "#EXTM3U"; js "  seg0.ts "; js ""]))
  = (Return [js "#EXTM3U"; js "seg0.ts"; js ""], [EvGet (js "https://h/a/p.m3u8")]).
Proof.
  apply (fetchPlaylist_line_endings (js "https://h/a/p.m3u8")
           (worldOf None (joinCRLF [js "#EXTM3U"; js "  seg0.ts "; js ""])) []
           {| res_ok := true; res_status := 200;
              res_text := joinCRLF [js "#EXTM3U"; js "  seg0.ts "; js ""] |}
           [js "#EXTM3U"; js "  seg0.ts "; js ""]).
  - reflexivity.
  - reflexivity.
  - discriminate.
  - repeat constructor; not_in_literal.
  - right. reflexivity.
Defined.

Lemma trimStart_head (s : jsstring) :
  trimStart s = []
  \/ exists c r, trimStart s = c :: r /\ isWhiteSpace c = false.
Proof.
  induction s as [|a s IH]; [now left|].
  simpl. destruct (isWhiteSpace a) eqn:E; [exact IH|].
  right. now exists a, s.
Qed.

Lemma trimStart_keeps_last (xs : jsstring) (a : N) :
  isWhiteSpace a = false -> exists y, trimStart (xs ++ [a]) = y ++ [a].
Proof.
  intros Ha. induction xs as [|c xs IH].
  - simpl. rewrite Ha. now exists [].
  - simpl. destruct (isWhiteSpace c); [exact IH|]. now exists (c :: xs).
Qed.

(** A trimmed string is empty, or begins and ends with code units that
    are not white space. *)
Lemma trim_ends (s : jsstring) :
  trim s = []
  \/ (exists c r, trim s = c :: r /\ isWhiteSpace c = false)
     /\ (exists r c, trim s = r ++ [c] /\ isWhiteSpace c = false).
Proof.
  unfold trim.
  destruct (trimStart_head s) as [-> | (a & t & -> & Ha)]; [now left|].
  right. unfold trimEnd. simpl rev.
  destruct (trimStart_keeps_last (rev t) a Ha) as [y Hy].
  destruct (trimStart_head (rev t ++ [a])) as [E | (c & r & E & Hc)].
  - rewrite Hy in E. now destruct y.
  - split.
    + rewrite Hy, rev_unit. now exists a, (rev y).
    + rewrite E. simpl. now exists (rev r), c.
Qed.

(** X12.  No line returned by [fetchPlaylist] begins or ends with white
    space: each line is empty, or its first and its last code unit are
    not white space. *)
Theorem fetched_lines_are_trimmed
    (target : jsstring) (w : World) (tr tr' : Trace) (lines : list jsstring)
    (line : jsstring) :
  fetchPlaylist target w tr = (Return lines, tr') -> In line lines ->
  line = []
  \/ (exists c r, line = c :: r /\ isWhiteSpace c = false)
     /\ (exists r c, line = r ++ [c] /\ isWhiteSpace c = false).
Proof.
  rewrite fetchPlaylist_unfold.
  destruct (http_get w target) as [res|]; [|discriminate].
  destruct (negb (res_ok res)); [discriminate|].
  intros H Hin. inversion H; subst.
  apply in_map_iff in Hin as (raw & <- & _). apply trim_ends.
Qed.

Lemma fetched_lines_are_trimmed_witness :
  js "seg0.ts" = []
  \/ (exists c r, js "seg0.ts" = c :: r /\ isWhiteSpace c = false)
     /\ (exists r c, js "seg0.ts" = r ++ [c] /\ isWhiteSpace c = false).
Proof.
  apply (fetched_lines_are_trimmed (js "https://h/a/p.m3u8")
           (worldOf None (joinCRLF [js "#EXTM3U"; js "  seg0.ts "; js ""])) []
           [EvGet (js "https://h/a/p.m3u8")]
           [js "#EXTM3U"; js "seg0.ts"; js ""]).
  - reflexivity.
  - right. left. reflexivity.
Defined.

(** ** The two levels of the resolver *)

(** X13.  [parseHlsManifest] makes one request, for the master URL, or
    two: the second one is for the first nested playlist line of the
    master, resolved against the directory of the master URL.  A
    playlist named inside the media playlist is never followed. *)
Theorem parseHlsManifest_requests (masterUrl : jsstring) (w : World) (tr : Trace) :
  snd (parseHlsManifest masterUrl w tr) = tr ++ [EvGet masterUrl]
  \/ exists res line,
       http_get w masterUrl = Some res
       /\ find isNestedPlaylistLine (bodyLines (res_text res)) = Some line
       /\ snd (parseHlsManifest masterUrl w tr)
          = tr ++ [EvGet masterUrl; EvGet (resolveUrl (getBaseUrl masterUrl) line)].
Proof.
  unfold parseHlsManifest, bind. rewrite fetchPlaylist_unfold.
  destruct (http_get w masterUrl) as [res|]; [|now left].
  destruct (negb (res_ok res)); [now left|].
  fold (bodyLines (res_text res)).
  destruct (length (bodyLines (res_text res)) =? 0)%nat; [now left|].
  destruct (find isNestedPlaylistLine (bodyLines (res_text res))) as [line|] eqn:F;
    [|now left].
  cbn [option_map].
  destruct (resolveUrl (getBaseUrl masterUrl) line) as [|c u] eqn:R; [now left|].
  right. exists res, line. split; [reflexivity|]. split; [exact F|].
  rewrite R, fetchPlaylist_unfold, <- app_assoc.
  destruct (http_get w (c :: u)) as [res2|]; [|reflexivity].
  destruct (negb (res_ok res2)); reflexivity.
Qed.

(** X14.  When the master playlist names a nested playlist and both
    fetches succeed, the manifest is the scan of the media playlist
    alone, with the media playlist URL as base: the other lines of the
    master are not scanned. *)
Theorem parseHlsManifest_nested
    (masterUrl : jsstring) (w : World) (tr : Trace)
    (res res2 : Response) (line : jsstring) :
  http_get w masterUrl = Some res -> res_ok res = true ->
  find isNestedPlaylistLine (bodyLines (res_text res)) = Some line ->
  http_get w (resolveUrl (getBaseUrl masterUrl) line) = Some res2 ->
  res_ok res2 = true ->
  parseHlsManifest masterUrl w tr
  = (Return (parseStreamPlaylist (resolveUrl (getBaseUrl masterUrl) line)
                                 (bodyLines (res_text res2))),
     tr ++ [EvGet masterUrl; EvGet (resolveUrl (getBaseUrl masterUrl) line)]).
Proof.
  intros Hget Hok Hfind Hget2 Hok2.
  assert (Hline : line <> []).
  { apply find_some in Hfind as [_ H]. now destruct line. }
  destruct (resolveUrl_suffix (getBaseUrl masterUrl) line) as [k Hk].
  destruct (resolveUrl (getBaseUrl masterUrl) line) as [|c u] eqn:R.
  { symmetry in Hk. apply app_eq_nil in Hk as [_ Hk]. contradiction. }
  unfold parseHlsManifest, bind.
  rewrite fetchPlaylist_unfold, Hget, Hok. cbn [negb].
  fold (bodyLines (res_text res)).
  destruct (bodyLines (res_text res)) as [|l ls] eqn:B; [discriminate|].
  cbn [length Nat.eqb]. rewrite Hfind. cbn [option_map]. rewrite R.
  rewrite fetchPlaylist_unfold, Hget2, Hok2. cbn [negb ret].
  now rewrite <- app_assoc.
Qed.

Lemma parseHlsManifest_nested_witness :
  run (parseHlsManifest (js "https://h/a/master.m3u8"))
      (pagesWorld
         [(js "https://h/a/master.m3u8",
           joinLines [js "#EXTM3U"; js "ignored.ts"; js "v/stream.m3u8?b=1"]);
          (js "https://h/a/v/stream.m3u8?b=1",
           joinLines [js "#EXTM3U"; js "#EXTINF:4.0,"; js "seg0.ts"])])
  = (Return {| initSegmentUrl := None;
               segments := [{| url := js "https://h/a/v/seg0.ts";
                               durationMs := num 4000 |}];
               totalDurationMs := num 4000 |},
     [EvGet (js "https://h/a/master.m3u8");
      EvGet (js "https://h/a/v/stream.m3u8?b=1")]).
Proof.
  apply (parseHlsManifest_nested (js "https://h/a/master.m3u8")
           (pagesWorld
              [(js "https://h/a/master.m3u8",
                joinLines [js "#EXTM3U"; js "ignored.ts"; js "v/stream.m3u8?b=1"]);
               (js "https://h/a/v/stream.m3u8?b=1",
                joinLines [js "#EXTM3U"; js "#EXTINF:4.0,"; js "seg0.ts"])])
           []
           {| res_ok := true; res_status := 200;
              res_text := joinLines [js "#EXTM3U"; js "ignored.ts";
                                     js "v/stream.m3u8?b=1"] |}
           {| res_ok := true; res_status := 200;
              res_text := joinLines [js "#EXTM3U"; js "#EXTINF:4.0,"; js "seg0.ts"] |}
           (js "v/stream.m3u8?b=1")); reflexivity.
Defined.

(** ** The result of the path decryptor *)

Lemma forallb_firstn {A} (f : A -> bool) (n : nat) (l : list A) :
  forallb f l = true -> forallb f (firstn n l) = true.
Proof.
  revert n; induction l as [|a l IH]; intros [|n] H; try reflexivity.
  simpl in *. apply andb_true_iff in H as [Ha Hl]. now rewrite Ha, IH.
Qed.

Lemma forallb_skipn {A} (f : A -> bool) (n : nat) (l : list A) :
  forallb f l = true -> forallb f (skipn n l) = true.
Proof.
  revert n; induction l as [|a l IH]; intros [|n] H; try reflexivity; try exact H.
  simpl in *. apply andb_true_iff in H as [_ Hl]. now apply IH.
Qed.

Lemma substring_forallb (f : N -> bool) (s : jsstring) (a b : Z) :
  forallb f s = true -> forallb f (substring s a b) = true.
Proof. intros H. unfold substring. now apply forallb_firstn, forallb_skipn. Qed.

Lemma cleanText_printable (decrypted : bytes) :
  forallb isPrintable (cleanText decrypted) = true.
Proof. unfold cleanText. apply forallb_filter. Qed.

Lemma decryptStreamPath_shape
    (encryptedData : jsstring) (w : World) (tr tr' : Trace) (result : jsstring) :
  decryptStreamPath encryptedData w tr = (Return result, tr') ->
  result <> [] ->
  startsWith result (HLS_BASE_URL ++ js "hls/") = true
  /\ forallb isPrintable result = true.
Proof.
  rewrite decryptStreamPath_unfold.
  destruct (parseInt10 (nth_error encryptedData 0)) as [offset|];
    [|intros H; inversion H; congruence].
  cbv zeta. destruct (length _ mod 16 =? 0)%nat;
    [|intros H; inversion H; congruence].
  set (rawText := cleanText _).
  destruct (includes rawText (js "/hls/")) eqn:Hin;
    [|intros H; inversion H; congruence].
  intros H _.
  assert (E : result = HLS_BASE_URL
                       ++ substringFrom rawText (indexOf rawText (js "hls/") 0))
    by congruence.
  rewrite E. split.
  - destruct (marker_first_occurrence rawText Hin) as (before & path & _ & Hs & _ & Hp).
    rewrite Hp. destruct (startsWith_inv _ _ Hs) as [r Hr]. rewrite Hr.
    rewrite app_assoc. apply startsWith_app.
  - rewrite forallb_app. apply andb_true_iff. split; [reflexivity|].
    apply substring_forallb. apply cleanText_printable.
Qed.

(** X15.  Every result of [decryptStreamPath] that is not empty begins
    with the base URL followed by [hls/], and consists of printable
    ASCII code units only, whatever bytes the token decrypts to. *)
Theorem decrypted_url_shape
    (encryptedData : jsstring) (w : World) (tr tr' : Trace) (result : jsstring) :
  decryptStreamPath encryptedData w tr = (Return result, tr') ->
  result <> [] ->
  startsWith result (HLS_BASE_URL ++ js "hls/") = true
  /\ forallb isPrintable result = true.
Proof.
  rewrite decryptStreamPath_unfold.
  destruct (parseInt10 (nth_error encryptedData 0)) as [offset|];
    [|intros H; inversion H; congruence].
  cbv zeta. destruct (length _ mod 16 =? 0)%nat;
    [|intros H; inversion H; congruence].
  set (rawText := cleanText _).
  destruct (includes rawText (js "/hls/")) eqn:Hin;
    [|intros H; inversion H; congruence].
  intros H _.
  assert (E : result = HLS_BASE_URL
                       ++ substringFrom rawText (indexOf rawText (js "hls/") 0))
    by congruence.
  rewrite E. split.
  - destruct (marker_first_occurrence rawText Hin) as (before & path & _ & Hs & _ & Hp).
    rewrite Hp. destruct (startsWith_inv _ _ Hs) as [r Hr]. rewrite Hr.
    rewrite app_assoc. apply startsWith_app.
  - rewrite forallb_app. apply andb_true_iff. split; [reflexivity|].
    apply substring_forallb. apply cleanText_printable.
Qed.

Lemma decrypted_url_shape_witness :
  startsWith sampleHlsUrl (HLS_BASE_URL ++ js "hls/") = true
  /\ forallb isPrintable sampleHlsUrl = true.
Proof.
  apply (decrypted_url_shape sampleToken offline [] []).
  - vm_compute. reflexivity.
  - discriminate.
Defined.

(** X16.  The code units that the offset skips do not matter: two
    tokens with the same digit in front and the same payload after the
    skipped part decrypt alike. *)
Theorem skipped_part_is_ignored
    (d : N) (offset : Z) (skipped1 skipped2 payload : jsstring)
    (w : World) (tr : Trace) :
  parseInt10 (Some d) = Some offset ->
  jslength skipped1 = offset + 15 -> jslength skipped2 = offset + 15 ->
  decryptStreamPath (d :: skipped1 ++ payload) w tr
  = decryptStreamPath (d :: skipped2 ++ payload) w tr.
Proof.
  intros Hd H1 H2. rewrite !decryptStreamPath_unfold. cbn [nth_error]. rewrite Hd.
  assert (E : forall skipped, jslength skipped = offset + 15 ->
              substringFrom (d :: skipped ++ payload) (offset + 16) = payload).
  { intros skipped H. change (d :: skipped ++ payload) with ((d :: skipped) ++ payload).
    replace (offset + 16) with (jslength (d :: skipped))
      by (unfold jslength in *; simpl length; lia).
    apply substringFrom_suffix. }
  now rewrite (E skipped1 H1), (E skipped2 H2).
Qed.

Lemma skipped_part_is_ignored_witness :
  run (decryptStreamPath (js "3" ++ js "ZZZZZZZZZZZZZZZZZZ" ++ skipn 19 sampleToken)) offline
  = run (decryptStreamPath sampleToken) offline.
Proof.
  apply (skipped_part_is_ignored 51 3 (js "ZZZZZZZZZZZZZZZZZZ")
           (js "abcdefghijklmnopqr") (skipn 19 sampleToken) offline []);
    reflexivity.
Defined.

Lemma substringFrom_beyond (s : jsstring) (a : Z) :
  jslength s <= a -> substringFrom s a = [].
Proof.
  intros H. unfold substringFrom, substring.
  assert (Ha : clampIndex s a = length s) by (unfold clampIndex, jslength in *; lia).
  assert (Hb : clampIndex s (jslength s) = length s)
    by (unfold clampIndex, jslength in *; lia).
  rewrite Ha, Hb, Nat.max_id, Nat.min_id.
  replace (length s - length s)%nat with 0%nat by lia. reflexivity.
Qed.

(** X17.  A token that begins with a digit and is not longer than the
    part the offset skips has an empty payload: nothing is decrypted,
    no path is found and the empty string is returned. *)
Theorem short_token_has_no_path
    (encryptedData : jsstring) (offset : Z) (w : World) (tr : Trace) :
  parseInt10 (nth_error encryptedData 0) = Some offset ->
  jslength encryptedData <= offset + 16 ->
  decryptStreamPath encryptedData w tr = (Return [], tr ++ [EvWarn NoHlsPathFound]).
Proof.
  intros Hoff Hlen. rewrite decryptStreamPath_unfold, Hoff.
  now rewrite substringFrom_beyond.
Qed.

Lemma short_token_has_no_path_witness :
  run (decryptStreamPath (js "9abcdefghijklmnopqrstuvwx")) offline
  = (Return [], [EvWarn NoHlsPathFound]).
Proof.
  apply (short_token_has_no_path (js "9abcdefghijklmnopqrstuvwx") 9 offline []).
  - reflexivity.
  - vm_compute. discriminate.
Defined.


(** ** The requests and failures of the orchestrator *)

Lemma decryptStreamPath_trace (encryptedData : jsstring) (w : World) (tr : Trace) :
  (exists path, decryptStreamPath encryptedData w tr = (Return (HLS_BASE_URL ++ path), tr))
  \/ (exists msg, decryptStreamPath encryptedData w tr = (Return [], tr ++ [EvWarn msg])).
Proof.
  rewrite decryptStreamPath_unfold.
  destruct (parseInt10 (nth_error encryptedData 0)) as [offset|];
    [|right; eexists; reflexivity].
  cbv zeta. destruct (length _ mod 16 =? 0)%nat; [|right; eexists; reflexivity].
  destruct (includes _ (js "/hls/")); [left | right]; eexists; reflexivity.
Qed.

Lemma parseHlsManifest_trace (masterUrl : jsstring) (w : World) (tr : Trace) :
  exists gets,
    snd (parseHlsManifest masterUrl w tr) = tr ++ gets
    /\ forallb isGet gets = true /\ (length gets <= 2)%nat.
Proof.
  unfold parseHlsManifest, bind. rewrite fetchPlaylist_unfold.
  assert (One : exists gets, tr ++ [EvGet masterUrl] = tr ++ gets
                             /\ forallb isGet gets = true /\ (length gets <= 2)%nat)
    by (exists [EvGet masterUrl]; simpl; auto).
  destruct (http_get w masterUrl) as [res|]; [|exact One].
  destruct (negb (res_ok res)); [exact One|].
  destruct (length _ =? 0)%nat; [exact One|].
  destruct (option_map _ _) as [[|c u]|]; try exact One.
  rewrite fetchPlaylist_unfold.
  exists [EvGet masterUrl; EvGet (c :: u)].
  split; [|simpl; auto].
  destruct (http_get w (c :: u)) as [res2|]; [|simpl; now rewrite <- app_assoc].
  destruct (negb (res_ok res2)); simpl; now rewrite <- app_assoc.
Qed.

Lemma fetchStreamUrl_trace (trackId : jsstring) (q : Quality) (w : World) (tr : Trace) :
  exists r rest,
    fetchStreamUrl trackId q w tr
    = (Return r, tr ++ EvPost (lookupRequest trackId q) :: rest)
    /\ forallb (fun ev => negb (isPost ev)) rest = true
    /\ (length (filter isGet rest) <= 2)%nat.
Proof.
  unfold fetchStreamUrl, tryCatch, fetchStreamUrl_try, postStreamUrl, bind, warn,
    emit, ret.
  destruct (post_stream_url w (lookupRequest trackId q)) as [reply|].
  2:{ exists None, [EvWarn (FailedToFetchStreamUrl LookupRejected)].
      split; [cbn; now rewrite <- app_assoc | simpl; auto]. }
  destruct (isSuccess reply && truthyString (replyStreamPath reply)).
  2:{ exists None, []. split; [reflexivity | simpl; auto]. }
  cbv zeta. set (token := orEmpty (replyStreamPath reply)).
  set (tr0 := (tr ++ [EvPost (lookupRequest trackId q)]) ++ [EvDecrypt token]).
  destruct (decryptStreamPath_trace token w tr0) as [[path E] | [msg E]]; rewrite E.
  2:{ exists None, [EvDecrypt token; EvWarn msg]. subst tr0.
      split; [cbn; now rewrite <- !app_assoc | simpl; auto]. }
  change (HLS_BASE_URL ++ path) with (104%N :: tl HLS_BASE_URL ++ path).
  cbv beta iota.
  set (hlsUrl := 104%N :: tl HLS_BASE_URL ++ path).
  destruct (parseHlsManifest_trace hlsUrl w tr0) as (gets & Hsnd & Hget & Hlen).
  assert (Hrest : forall tail,
            forallb (fun ev => negb (isPost ev)) tail = true ->
            filter isGet tail = [] ->
            forallb (fun ev => negb (isPost ev)) (EvDecrypt token :: gets ++ tail) = true
            /\ (length (filter isGet (EvDecrypt token :: gets ++ tail)) <= 2)%nat).
  { intros tail Ht Hf. cbn [forallb isPost negb andb filter isGet].
    rewrite forallb_app, Ht, andb_true_r, filter_app, Hf, app_nil_r. split.
    - clear -Hget. induction gets as [|g gets IH]; [reflexivity|].
      simpl in *. apply andb_true_iff in Hget as [Hg Hgs].
      destruct g; try discriminate. now apply IH.
    - rewrite forallb_filter_id by assumption. exact Hlen. }
  destruct (parseHlsManifest hlsUrl w tr0) as [[manifest|e] tr2]; simpl in Hsnd; subst tr2.
  - destruct (segments manifest) as [|first others].
    + exists None, (EvDecrypt token :: gets ++ [EvWarn NoSegmentsFound]).
      split; [subst tr0; cbn; now rewrite <- !app_assoc | now apply Hrest].
    + exists (Some (descriptor q reply hlsUrl manifest first)),
             (EvDecrypt token :: gets ++ []).
      split; [subst tr0; cbn; now rewrite <- !app_assoc, app_nil_r | now apply Hrest].
  - exists None, (EvDecrypt token :: gets ++ [EvWarn (FailedToFetchStreamUrl e)]).
    split; [subst tr0; cbn; now rewrite <- !app_assoc | now apply Hrest].
Qed.

(** X19.  [fetchStreamUrl] never throws, whatever the network does.
    It makes exactly one lookup, which is its first action, and at most
    two playlist requests. *)
Theorem fetchStreamUrl_requests
    (trackId : jsstring) (q : Quality) (w : World) (tr : Trace) :
  exists r rest,
    fetchStreamUrl trackId q w tr
    = (Return r, tr ++ EvPost (lookupRequest trackId q) :: rest)
    /\ (forall req, ~ In (EvPost req) rest)
    /\ (length (filter isGet rest) <= 2)%nat.
Proof.
  destruct (fetchStreamUrl_trace trackId q w tr) as (r & rest & E & Hpost & Hget).
  exists r, rest. split; [exact E|]. split; [|exact Hget].
  intros req Hin. rewrite forallb_forall in Hpost.
  specialize (Hpost _ Hin). discriminate.
Qed.

(** X20.  When the lookup throws, because the request is rejected by
    the network or because its body is not valid JSON or is the JSON
    value null, [fetchStreamUrl] logs the failure and returns [null]:
    nothing is decrypted and no playlist is fetched. *)
Theorem rejected_lookup_returns_null
    (trackId : jsstring) (q : Quality) (w : World) (tr : Trace) :
  post_stream_url w (lookupRequest trackId q) = None ->
  fetchStreamUrl trackId q w tr
  = (Return None,
     tr ++ [EvPost (lookupRequest trackId q);
            EvWarn (FailedToFetchStreamUrl LookupRejected)]).
Proof.
  intros H.
  unfold fetchStreamUrl, tryCatch, fetchStreamUrl_try, postStreamUrl, bind, warn,
    emit, ret.
  rewrite H. cbn. now rewrite <- app_assoc.
Qed.

Lemma rejected_lookup_returns_null_witness :
  run (fetchStreamUrl (js "12345") low) offline
  = (Return None,
     [EvPost (lookupRequest (js "12345") low);
      EvWarn (FailedToFetchStreamUrl LookupRejected)]).
Proof.
  apply (rejected_lookup_returns_null (js "12345") low offline []). reflexivity.
Defined.

Lemma fetchStreamUrl_after_lookup
    (trackId : jsstring) (q : Quality) (w : World) (tr : Trace)
    (reply : ApiReply) (token : jsstring) :
  post_stream_url w (lookupRequest trackId q) = Some reply ->
  isSuccess reply = true -> replyStreamPath reply = Some token -> token <> [] ->
  fetchStreamUrl trackId q w tr =
  tryCatch
    (bind (decryptStreamPath token)
       (fun hlsUrl =>
          match hlsUrl with
          | [] => ret None
          | _ :: _ =>
              bind (parseHlsManifest hlsUrl)
                (fun manifest =>
                   match segments manifest with
                   | [] => bind (warn NoSegmentsFound) (fun _ => ret None)
                   | first :: _ => ret (Some (descriptor q reply hlsUrl manifest first))
                   end)
          end))
    (fun e => bind (warn (FailedToFetchStreamUrl e)) (fun _ => ret None))
    w ((tr ++ [EvPost (lookupRequest trackId q)]) ++ [EvDecrypt token]).
Proof.
  intros Hpost Hok Htok Hne.
  unfold fetchStreamUrl, tryCatch, fetchStreamUrl_try, postStreamUrl, bind, emit.
  rewrite Hpost, Hok, Htok. destruct token; [contradiction | reflexivity].
Qed.

Lemma decryptStreamPath_result (encryptedData : jsstring) (w : World) (tr1 tr2 : Trace) :
  fst (decryptStreamPath encryptedData w tr1) = fst (decryptStreamPath encryptedData w tr2).
Proof.
  rewrite !decryptStreamPath_unfold.
  destruct (parseInt10 (nth_error encryptedData 0)); [|reflexivity].
  cbv zeta. destruct (length _ mod 16 =? 0)%nat; [|reflexivity].
  destruct (includes _ (js "/hls/")); reflexivity.
Qed.

(** X21.  When the token of a successful lookup does not decrypt to a
    path, [fetchStreamUrl] returns [null] right after the warning of
    the decryptor: no playlist is fetched. *)
Theorem failed_decryption_returns_null
    (trackId : jsstring) (q : Quality) (w : World) (tr : Trace)
    (reply : ApiReply) (token : jsstring) :
  post_stream_url w (lookupRequest trackId q) = Some reply ->
  isSuccess reply = true -> replyStreamPath reply = Some token -> token <> [] ->
  fst (decryptStreamPath token w []) = Return [] ->
  exists msg,
    fetchStreamUrl trackId q w tr
    = (Return None,
       tr ++ [EvPost (lookupRequest trackId q); EvDecrypt token; EvWarn msg]).
Proof.
  intros Hpost Hok Htok Hne Hdec.
  rewrite (fetchStreamUrl_after_lookup _ _ _ _ _ _ Hpost Hok Htok Hne).
  unfold tryCatch, bind.
  set (tr0 := (tr ++ [EvPost (lookupRequest trackId q)]) ++ [EvDecrypt token]).
  rewrite (decryptStreamPath_result token w [] tr0) in Hdec.
  destruct (decryptStreamPath_trace token w tr0) as [[path E] | [msg E]];
    rewrite E in *.
  - exfalso. simpl in Hdec. inversion Hdec.
  - exists msg. subst tr0. cbn. now rewrite <- !app_assoc.
Qed.

Lemma failed_decryption_returns_null_witness :
  exists msg,
    run (fetchStreamUrl (js "12345") high)
        (worldOf (Some (successReply (js "not-a-token"))) [])
    = (Return None,
       [EvPost (lookupRequest (js "12345") high); EvDecrypt (js "not-a-token");
        EvWarn msg]).
Proof.
  apply (failed_decryption_returns_null (js "12345") high
           (worldOf (Some (successReply (js "not-a-token"))) []) []
           (successReply (js "not-a-token")) (js "not-a-token"));
    try reflexivity.
  discriminate.
Defined.

(** X22.  When the token decrypts to a URL and the request for that
    playlist fails, by a network error or a status that is not a
    success, [fetchStreamUrl] logs the failure and returns [null]. *)
Theorem failed_playlist_fetch_returns_null
    (trackId : jsstring) (q : Quality) (w : World) (tr : Trace)
    (reply : ApiReply) (token hlsUrl : jsstring) :
  post_stream_url w (lookupRequest trackId q) = Some reply ->
  isSuccess reply = true -> replyStreamPath reply = Some token -> token <> [] ->
  fst (decryptStreamPath token w []) = Return hlsUrl -> hlsUrl <> [] ->
  http_get w hlsUrl = None
  \/ (exists res, http_get w hlsUrl = Some res /\ res_ok res = false) ->
  exists e,
    (e = FetchRejected \/ exists status, e = FailedToFetchPlaylist status)
    /\ fetchStreamUrl trackId q w tr
       = (Return None,
          tr ++ [EvPost (lookupRequest trackId q); EvDecrypt token; EvGet hlsUrl;
                 EvWarn (FailedToFetchStreamUrl e)]).
Proof.
  intros Hpost Hok Htok Hne Hdec Hurl Hget.
  rewrite (fetchStreamUrl_after_lookup _ _ _ _ _ _ Hpost Hok Htok Hne).
  unfold tryCatch, bind.
  set (tr0 := (tr ++ [EvPost (lookupRequest trackId q)]) ++ [EvDecrypt token]).
  rewrite (decryptStreamPath_result token w [] tr0) in Hdec.
  destruct (decryptStreamPath token w tr0) as [o tr1] eqn:E. simpl in Hdec. subst o.
  assert (Htr : tr1 = tr0).
  { destruct (decryptStreamPath_trace token w tr0) as [[path E'] | [msg E']];
      rewrite E' in E; inversion E; congruence. }
  subst tr1. destruct hlsUrl as [|c u]; [contradiction|].
  unfold parseHlsManifest, bind. rewrite fetchPlaylist_unfold.
  destruct Hget as [Hget | (res & Hget & Hres)]; rewrite Hget.
  - exists FetchRejected. split; [now left|].
    subst tr0. cbn. now rewrite <- !app_assoc.
  - rewrite Hres. exists (FailedToFetchPlaylist (res_status res)).
    split; [right; now eexists|].
    subst tr0. cbn. now rewrite <- !app_assoc.
Qed.

Lemma failed_playlist_fetch_returns_null_witness :
  exists e,
    (e = FetchRejected \/ exists status, e = FailedToFetchPlaylist status)
    /\ run (fetchStreamUrl (js "12345") high)
           {| http_get := fun _ => Some {| res_ok := false; res_status := 403;
                                           res_text := [] |};
              post_stream_url := fun _ => Some (successReply sampleToken) |}
       = (Return None,
          [EvPost (lookupRequest (js "12345") high); EvDecrypt sampleToken;
           EvGet sampleHlsUrl; EvWarn (FailedToFetchStreamUrl e)]).
Proof.
  apply (failed_playlist_fetch_returns_null (js "12345") high
           {| http_get := fun _ => Some {| res_ok := false; res_status := 403;
                                           res_text := [] |};
              post_stream_url := fun _ => Some (successReply sampleToken) |}
           [] (successReply sampleToken) sampleToken sampleHlsUrl).
  - reflexivity.
  - reflexivity.
  - reflexivity.
  - discriminate.
  - vm_compute. reflexivity.
  - discriminate.
  - right. eexists. split; reflexivity.
Defined.

(** X23.  When the lookup succeeds, the token decrypts to a URL and
    the resolver returns a manifest with at least one segment,
    [fetchStreamUrl] returns the descriptor built from them and logs
    nothing more. *)
Theorem resolved_manifest_gives_descriptor
    (trackId : jsstring) (q : Quality) (w : World) (tr tr1 tr2 : Trace)
    (reply : ApiReply) (token hlsUrl : jsstring) (manifest : HlsManifest)
    (first : SegmentInfo) (others : list SegmentInfo) :
  post_stream_url w (lookupRequest trackId q) = Some reply ->
  isSuccess reply = true ->
  replyStreamPath reply = Some token -> token <> [] ->
  decryptStreamPath token w ((tr ++ [EvPost (lookupRequest trackId q)])
                             ++ [EvDecrypt token]) = (Return hlsUrl, tr1) ->
  hlsUrl <> [] ->
  parseHlsManifest hlsUrl w tr1 = (Return manifest, tr2) ->
  segments manifest = first :: others ->
  fetchStreamUrl trackId q w tr
  = (Return (Some (descriptor q reply hlsUrl manifest first)), tr2).
Proof.
  intros Hpost Hok Htok Hne Hdec Hurl Hparse Hseg.
  rewrite (fetchStreamUrl_after_lookup _ _ _ _ _ _ Hpost Hok Htok Hne).
  unfold tryCatch, bind. rewrite Hdec.
  destruct hlsUrl as [|c u]; [contradiction|]. now rewrite Hparse, Hseg.
Qed.

Lemma resolved_manifest_gives_descriptor_witness :
  exists m,
    run (fetchStreamUrl (js "12345") high)
        (worldOf (Some (successReply sampleToken))
                 (joinLines [js "#EXTM3U"; js "#EXTINF:4.0,"; js "seg0.aac"]))
    = (Return (Some m),
       [EvPost (lookupRequest (js "12345") high); EvDecrypt sampleToken;
        EvGet sampleHlsUrl])
    /\ MediaUrl.bitRate m = js "128".
Proof.
  eexists. split.
  - apply (resolved_manifest_gives_descriptor (js "12345") high
             (worldOf (Some (successReply sampleToken))
                      (joinLines [js "#EXTM3U"; js "#EXTINF:4.0,"; js "seg0.aac"]))
             []
             [EvPost (lookupRequest (js "12345") high); EvDecrypt sampleToken]
             [EvPost (lookupRequest (js "12345") high); EvDecrypt sampleToken;
              EvGet sampleHlsUrl]
             (successReply sampleToken) sampleToken sampleHlsUrl
             (parseStreamPlaylist sampleHlsUrl
                [js "#EXTM3U"; js "#EXTINF:4.0,"; js "seg0.aac"])
             {| url := js "https://vodhlsgaana-ebw.akamaized.net/hls/12/3456/seg0.aac";
                durationMs := num 4000 |}
             []).
    + reflexivity.
    + reflexivity.
    + reflexivity.
    + discriminate.
    + vm_compute. reflexivity.
    + discriminate.
    + vm_compute. reflexivity.
    + vm_compute. reflexivity.
  - reflexivity.
Defined.

(** ** What a returned descriptor satisfies *)

Lemma fetchStreamUrl_some_decrypted (trackId : jsstring) (q : Quality) (w : World)
    (tr tr' : Trace) (m : MediaUrl.t) :
  fetchStreamUrl trackId q w tr = (Return (Some m), tr') ->
  exists reply token tr0 hlsUrl tr1 manifest first others,
    decryptStreamPath token w tr0 = (Return hlsUrl, tr1)
    /\ hlsUrl <> []
    /\ parseHlsManifest hlsUrl w tr1 = (Return manifest, tr')
    /\ segments manifest = first :: others
    /\ m = descriptor q reply hlsUrl manifest first.
Proof.
  unfold fetchStreamUrl, tryCatch, fetchStreamUrl_try, postStreamUrl, bind, emit.
  destruct (post_stream_url w (lookupRequest trackId q)) as [reply|];
    [|discriminate].
  destruct (isSuccess reply && truthyString (replyStreamPath reply));
    [|discriminate].
  cbv zeta.
  destruct (decryptStreamPath _ w _) as [[[|c hlsUrl]|e] tr1] eqn:D; try discriminate.
  destruct (parseHlsManifest (c :: hlsUrl) w tr1) as [[manifest|e] tr2] eqn:E;
    try discriminate.
  destruct (segments manifest) as [|first others] eqn:Es; [discriminate|].
  intros H. inversion H; subst.
  eexists reply, _, _, (c :: hlsUrl), tr1, manifest, first, others.
  split; [exact D|]. split; [discriminate|]. split; [exact E|].
  split; [exact Es | reflexivity].
Qed.

Lemma parseHlsManifest_returns (masterUrl : jsstring) (w : World) (tr tr' : Trace)
    (manifest : HlsManifest) :
  parseHlsManifest masterUrl w tr = (Return manifest, tr') ->
  exists playlistUrl lines, manifest = parseStreamPlaylist playlistUrl lines.
Proof.
  unfold parseHlsManifest, bind.
  destruct (fetchPlaylist masterUrl w tr) as [[lines|e] tr1]; [|discriminate].
  destruct (length lines =? 0)%nat; [discriminate|].
  destruct (option_map _ _) as [[|c u]|].
  - intros H. inversion H. now exists masterUrl, lines.
  - destruct (fetchPlaylist (c :: u) w tr1) as [[lines2|e] tr2]; [|discriminate].
    intros H. inversion H. now exists (c :: u), lines2.
  - intros H. inversion H. now exists masterUrl, lines.
Qed.

(** X24.  A descriptor returned by [fetchStreamUrl] has the requested
    quality; its playlist URL begins with the base URL followed by
    [hls/]; its duration is the sum, in order, of the durations of its
    segments; and each of its segments has a URL with a media file
    name and a duration that is neither [NaN] nor zero. *)
Theorem descriptor_invariants
    (trackId : jsstring) (q : Quality) (w : World) (tr tr' : Trace) (m : MediaUrl.t) :
  fetchStreamUrl trackId q w tr = (Return (Some m), tr') ->
  MediaUrl.quality m = q
  /\ startsWith (MediaUrl.hlsUrl m) (HLS_BASE_URL ++ js "hls/") = true
  /\ MediaUrl.durationMs m
     = fold_left (fun sum s => num_add sum (durationMs s)) (MediaUrl.segments m) (num 0)
  /\ Forall (fun s => isSegmentName (url s) = true /\ num_truthy (durationMs s) = true)
            (MediaUrl.segments m).
Proof.
  intros H. apply fetchStreamUrl_some_decrypted in H
    as (reply & token & tr0 & hlsUrl & tr1 & manifest & first & others
        & Hdec & Hne & Hparse & _ & ->).
  apply parseHlsManifest_returns in Hparse as (playlistUrl & lines & ->).
  cbn [descriptor MediaUrl.quality MediaUrl.hlsUrl MediaUrl.durationMs
       MediaUrl.segments].
  split; [reflexivity|]. split; [|split].
  - now apply (decryptStreamPath_shape token w tr0 tr1).
  - reflexivity.
  - apply Forall_forall. intros s Hs. split.
    + now apply (parseStreamPlaylist_segment_line playlistUrl lines).
    + cbn [parseStreamPlaylist segments] in Hs.
      assert (Hw : wholeState lines
                     (scanLines (getBaseUrl playlistUrl) initialScan lines)).
      { apply scanLines_whole; [apply incl_refl|].
        split; [split; [apply DEFAULT_DURATION_whole | now left] | constructor]. }
      destruct Hw as [_ Hall]. rewrite Forall_forall in Hall.
      now destruct (Hall s Hs) as [[Ht _] _].
Qed.

Lemma descriptor_invariants_witness :
  MediaUrl.quality
    (descriptor medium (successReply sampleToken) sampleHlsUrl
       (parseStreamPlaylist sampleHlsUrl [js "#EXTINF:4.0,"; js "seg0.aac"])
       {| url := js "https://vodhlsgaana-ebw.akamaized.net/hls/12/3456/seg0.aac";
          durationMs := num 4000 |})
  = medium.
Proof.
  apply (descriptor_invariants (js "12345") medium
           (worldOf (Some (successReply sampleToken))
                    (joinLines [js "#EXTINF:4.0,"; js "seg0.aac"]))
           []
           [EvPost (lookupRequest (js "12345") medium); EvDecrypt sampleToken;
            EvGet sampleHlsUrl]).
  vm_compute. reflexivity.
Defined.

(** ** The convenience operation *)

(** X25.  [getMediaUrls] never throws and looks up the high quality
    only: it does what one call of [fetchStreamUrl] for the high
    quality does, and returns its descriptor as a list of one element,
    or the empty list when there is none.  No other quality is ever
    requested. *)
Theorem getMediaUrls_high_only (trackId : jsstring) (w : World) (tr : Trace) :
  exists r rest,
    fetchStreamUrl trackId high w tr
    = (Return r, tr ++ EvPost (lookupRequest trackId high) :: rest)
    /\ getMediaUrls trackId w tr
       = (Return match r with
                 | Some m => [m]
                 | None => []
                 end,
          tr ++ EvPost (lookupRequest trackId high) :: rest)
    /\ (forall req, ~ In (EvPost req) rest).
Proof.
  destruct (fetchStreamUrl_trace trackId high w tr) as (r & rest & E & Hpost & _).
  exists r, rest. split; [exact E|]. split.
  - unfold getMediaUrls, bind. rewrite E. now destruct r.
  - intros req Hin. rewrite forallb_forall in Hpost.
    specialize (Hpost _ Hin). discriminate.
Qed.

(** ** Nested playlist names and duration values *)

(** X26.  A line names a playlist exactly when it contains [.m3u8], in
    lower case, followed by the end of the line or by a question mark. *)
Theorem isPlaylistName_spec (line : jsstring) :
  isPlaylistName line = true
  <-> exists before after,
        line = before ++ js ".m3u8" ++ after
        /\ (after = [] \/ exists q, after = ch_question :: q).
Proof.
  unfold isPlaylistName. rewrite regexTest_occurs. split.
  - intros (before & r & -> & Hr). unfold m3u8PatternHere in Hr.
    apply andb_true_iff in Hr as [Hs Hend].
    apply startsWith_inv in Hs as [after ->].
    change (skipn 5 (js ".m3u8" ++ after)) with after in Hend.
    apply queryOrEnd_spec in Hend. now exists before, after.
  - intros (before & after & -> & Hend).
    exists before, (js ".m3u8" ++ after). split; [reflexivity|].
    unfold m3u8PatternHere. rewrite startsWith_app.
    change (skipn 5 (js ".m3u8" ++ after)) with after.
    now apply queryOrEnd_spec.
Qed.

Lemma durationStr_value (value rest : jsstring) :
  ~ In ch_comma value ->
  durationStr (js "#EXTINF:" ++ value ++ ch_comma :: rest) = value
  /\ durationStr (js "#EXTINF:" ++ value) = value.
Proof.
  intros H. unfold durationStr.
  change 8 with (jslength (js "#EXTINF:")). rewrite !substringFrom_suffix.
  destruct (split_first ch_comma value H) as [H1 H2]. now rewrite H1, H2.
Qed.

(** X27.  The duration of a duration directive is read from the text
    between the colon and the first comma: what follows the comma, the
    title of the segment, never changes it. *)
Theorem directive_title_is_ignored (value title1 title2 : jsstring) :
  ~ In ch_comma value ->
  extinfDuration (js "#EXTINF:" ++ value ++ ch_comma :: title1)
  = extinfDuration (js "#EXTINF:" ++ value ++ ch_comma :: title2)
  /\ extinfDuration (js "#EXTINF:" ++ value ++ ch_comma :: title1)
     = extinfDuration (js "#EXTINF:" ++ value).
Proof.
  intros H. unfold extinfDuration.
  destruct (durationStr_value value title1 H) as [E1 E0].
  destruct (durationStr_value value title2 H) as [E2 _].
  now rewrite E1, E2, E0.
Qed.

Lemma directive_title_is_ignored_witness :
  extinfDuration (js "#EXTINF:9.984,A, B") = extinfDuration (js "#EXTINF:9.984,")
  /\ extinfDuration (js "#EXTINF:9.984,A, B") = extinfDuration (js "#EXTINF:9.984").
Proof.
  apply (directive_title_is_ignored (js "9.984") (js "A, B") []).
  not_in_literal.
Defined.

(** X28.  A duration directive whose value is empty, or starts, after
    leading white space, with a code unit that is not a digit, a sign,
    a dot or a capital I, gives the default duration of 6000 ms: the
    scan never fails on a value it cannot read. *)
Theorem unreadable_duration_defaults (line : jsstring) :
  trimStart (durationStr line) = []
  \/ (exists c r, trimStart (durationStr line) = c :: r
                  /\ isDigit c = false /\ c <> 45%N /\ c <> 43%N
                  /\ c <> ch_dot /\ c <> 73%N) ->
  extinfDuration line = DEFAULT_DURATION.
Proof.
  intros H. unfold extinfDuration.
  assert (E : parseFloat (durationStr line) = S754_nan).
  { unfold parseFloat. destruct H as [-> | (c & r & -> & Hd & Hm & Hp & Hdot & HI)].
    - reflexivity.
    - apply N.eqb_neq in Hm, Hp, Hdot.
      cbn [takeSign]. rewrite Hm, Hp.
      change (js "Infinity") with (73%N :: js "nfinity").
      rewrite startsWith_head by assumption.
      cbn [takeDigits]. rewrite Hd, Hdot. reflexivity. }
  rewrite E. reflexivity.
Qed.

Lemma unreadable_duration_defaults_witness :
  extinfDuration (js "#EXTINF: n/a,title") = num 6000.
Proof.
  apply unreadable_duration_defaults. right. exists 110%N, (js "/a").
  repeat split; try reflexivity; discriminate.
Defined.
